(** * jutil: the length of a value's JSON representation

    A shallow embedding of [length.go] (package [jutil]) and the properties
    of [Length] that its specification states.

    Conventions of the embedding
    - Go's [int] and [int64] are 64-bit two's complement integers, carried as
      [Z] with the wrap-around of every addition and multiplication written
      out ([Int.add], [Int.mul]).  A property that names a length has the
      hypothesis that this length is representable ([Int.fits]).
    - A Go [string] is a sequence of bytes: Rocq's [string]; a [[]byte] is a
      [list byte].  [for i := range s] visits the first byte of every rune,
      as Go's UTF-8 decoding finds them ([Utf8.range]).
    - A function with results [(n int, err error)] returns the pair
      [(n, err)] with [err : option error]; [None] is Go's [nil] error.  Both
      components are modelled, since the source uses named results and a bare
      [return] hands back whatever [n] holds at that point.
    - An [interface{}] value is a [value]: a constructor for each type the
      type switch of [Length] names, and [VOther] for any other dynamic type,
      with the methods the switch asks about and what reflection finds.
    - A Go map has no order; a map value lists its entries in the order one
      traversal yields them, and two traversals of one value are related by
      [sameValue]. *)

From Stdlib Require Import ZArith NArith List String Ascii Bool Lia.
From Stdlib Require Import Permutation Morphisms Setoid.
From Stdlib Require Import Init.Byte.
From Stdlib Require Decimal DecimalString DecimalFacts DecimalPos DecimalN.
From Equations Require Import Equations.
Import ListNotations.

Local Open Scope string_scope.
Local Open Scope list_scope.
Local Open Scope Z_scope.

(* ===================================================================== *)
(** * Machine integers *)
(* ===================================================================== *)

Module Int.

(** [int] on the 64-bit platforms, and [int64] everywhere. *)
Definition size : Z := 64.
Definition MaxInt : Z := 2 ^ (size - 1) - 1.
Definition MinInt : Z := - 2 ^ (size - 1).
Definition MaxUint : Z := 2 ^ size - 1.

(** The value a mathematical integer takes once stored in an [int]. *)
Definition wrap (z : Z) : Z := (z + 2 ^ (size - 1)) mod 2 ^ size - 2 ^ (size - 1).

Definition fits (z : Z) : Prop := MinInt <= z <= MaxInt.
Definition fitsb (z : Z) : bool := (MinInt <=? z) && (z <=? MaxInt).
Definition ufits (z : Z) : Prop := 0 <= z <= MaxUint.

(** [a + b], [a * b] and [n++] on [int]. *)
Definition add (a b : Z) : Z := wrap (a + b).
Definition sub (a b : Z) : Z := wrap (a - b).
Definition mul (a b : Z) : Z := wrap (a * b).
Definition incr (n : Z) : Z := add n 1.

(** [a / b] on a signed type truncates toward zero; with a positive
    constant divisor it cannot overflow. *)
Definition quo (a b : Z) : Z := Z.quot a b.

(** [a / b] on an unsigned type: the operands are non-negative, where
    truncation and flooring agree. *)
Definition uquo (a b : Z) : Z := Z.quot a b.

End Int.

(* ===================================================================== *)
(** * Strings, bytes and the range clause over a string *)
(* ===================================================================== *)

(** [len(s)] for a string and [len(b)] for a slice. *)
Definition len (s : string) : Z := Z.of_nat (String.length s).
Definition lenl {A : Type} (l : list A) : Z := Z.of_nat (List.length l).

(** The numeric value of a byte. *)
Definition b2z (c : ascii) : Z := Z.of_N (N_of_ascii c).

(** [s[i]]; the source only indexes within bounds. *)
Definition at_ (s : string) (i : nat) : ascii :=
  match String.get i s with
  | Some c => c
  | None => Ascii.zero
  end.

(** [strings.IndexByte(s, c)]: the index of the first [c] in [s], or -1. *)
Fixpoint IndexByte_from (i : Z) (s : string) (c : ascii) : Z :=
  match s with
  | EmptyString => -1
  | String x t => if Ascii.eqb x c then i else IndexByte_from (i + 1) t c
  end.

Definition IndexByte (s : string) (c : ascii) : Z := IndexByte_from 0 s c.

Module Utf8.

(** The constants of Go's [runtime/utf8.go]. *)
Definition runeSelf : Z := 0x80.
Definition t2 : Z := 0xC0.
Definition t3 : Z := 0xE0.
Definition t4 : Z := 0xF0.
Definition t5 : Z := 0xF8.
Definition maskx : Z := 0x3F.
Definition mask2 : Z := 0x1F.
Definition mask3 : Z := 0x0F.
Definition mask4 : Z := 0x07.
Definition rune1Max : Z := 0x7F.
Definition rune2Max : Z := 0x7FF.
Definition rune3Max : Z := 0xFFFF.
Definition maxRune : Z := 0x10FFFF.
Definition surrogateMin : Z := 0xD800.
Definition surrogateMax : Z := 0xDFFF.
Definition locb : Z := 0x80.
Definition hicb : Z := 0xBF.

Definition isCont (c : ascii) : bool := (locb <=? b2z c) && (b2z c <=? hicb).

(** The number of bytes one iteration of [for i := range s] advances by,
    [s] being the rest of the string from index [i] on: 1 for a byte below
    [runeSelf], else what [decoderune] consumes (1 when the encoding is
    invalid, and the rune is then [RuneError]). *)
Definition width (s : string) : nat :=
  match s with
  | EmptyString => 1%nat
  | String c0 t =>
      let b0 := b2z c0 in
      if b0 <? runeSelf then 1%nat
      else if (t2 <=? b0) && (b0 <? t3) then
        match t with
        | String c1 _ =>
            let r := Z.lor (Z.shiftl (Z.land b0 mask2) 6) (Z.land (b2z c1) maskx) in
            if isCont c1 && (rune1Max <? r) then 2%nat else 1%nat
        | _ => 1%nat
        end
      else if (t3 <=? b0) && (b0 <? t4) then
        match t with
        | String c1 (String c2 _) =>
            let r := Z.lor (Z.lor (Z.shiftl (Z.land b0 mask3) 12)
                                  (Z.shiftl (Z.land (b2z c1) maskx) 6))
                           (Z.land (b2z c2) maskx) in
            if isCont c1 && isCont c2 && (rune2Max <? r)
               && negb ((surrogateMin <=? r) && (r <=? surrogateMax))
            then 3%nat else 1%nat
        | _ => 1%nat
        end
      else if (t4 <=? b0) && (b0 <? t5) then
        match t with
        | String c1 (String c2 (String c3 _)) =>
            let r := Z.lor (Z.lor (Z.lor (Z.shiftl (Z.land b0 mask4) 18)
                                         (Z.shiftl (Z.land (b2z c1) maskx) 12))
                                  (Z.shiftl (Z.land (b2z c2) maskx) 6))
                           (Z.land (b2z c3) maskx) in
            if isCont c1 && isCont c2 && isCont c3 && (rune3Max <? r) && (r <=? maxRune)
            then 4%nat else 1%nat
        | _ => 1%nat
        end
      else 1%nat
  end.

(** The bytes [s[i]] for the successive [i] of [for i := range s]: the
    first byte of every rune.  [skip] counts the bytes still belonging to
    the rune entered last. *)
Fixpoint range_from (skip : nat) (s : string) : list ascii :=
  match s with
  | EmptyString => []
  | String c t =>
      match skip with
      | S k => range_from k t
      | O => c :: range_from (Nat.pred (width s)) t
      end
  end.

Definition range (s : string) : list ascii := range_from 0 s.

End Utf8.

(* ===================================================================== *)
(** * Primitive length rules *)
(* ===================================================================== *)

Definition jsonLenNull : Z := 4.

Definition jsonLenBool (v : bool) : Z := if v then 4 else 5.

(** The measure under which the digit loops terminate: the number of bits
    of [|v|]. *)
Definition bits (v : Z) : nat :=
  Z.to_nat (if v =? 0 then 0 else Z.log2 (Z.abs v) + 1).

Lemma bits_quot10 (v : Z) : v <> 0 -> (bits (v ÷ 10) < bits v)%nat.
Proof.
  intros Hv. unfold bits.
  destruct (Z.eqb_spec v 0) as [|_]; [contradiction|].
  pose proof (Z.log2_nonneg (Z.abs v)).
  destruct (Z.eqb_spec (v ÷ 10) 0) as [|Hq]; [lia|].
  pose proof (Z.log2_nonneg (Z.abs (v ÷ 10))).
  assert (Hd : Z.log2 (2 * Z.abs (v ÷ 10)) <= Z.log2 (Z.abs v)).
  { apply Z.log2_le_mono. rewrite <- Z.quot_abs by lia. simpl (Z.abs 10).
    pose proof (Z.quot_rem' (Z.abs v) 10).
    pose proof (Z.rem_bound_pos (Z.abs v) 10). lia. }
  rewrite Z.log2_double in Hd by lia. lia.
Qed.

(** The loop [for v != 0 { v /= 10; n++ }] of [jsonLenInt]. *)
Equations? jsonLenInt_loop (v n : Z) : Z by wf (bits v) lt :=
  jsonLenInt_loop v n with Z.eq_dec v 0 => {
    | left _ := n;
    | right _ := jsonLenInt_loop (Int.quo v 10) (Int.incr n) }.
Proof. apply bits_quot10; assumption. Qed.

Definition jsonLenInt (v : Z) : Z :=
  if v =? 0 then 1
  else
    let n := 0 in
    let n := if v <? 0 then Int.incr n else n in
    jsonLenInt_loop v n.

(** The same loop on [uint64]. *)
Equations? jsonLenUint_loop (v n : Z) : Z by wf (bits v) lt :=
  jsonLenUint_loop v n with Z.eq_dec v 0 => {
    | left _ := n;
    | right _ := jsonLenUint_loop (Int.uquo v 10) (Int.incr n) }.
Proof. apply bits_quot10; assumption. Qed.

Definition jsonLenUint (v : Z) : Z :=
  if v =? 0 then 1 else jsonLenUint_loop v 0.

(** [escapedBytes], the constant of [jsonLenString]'s short-string path, in
    the order the source lists it: slash, double quote, backslash, newline,
    tab, carriage return, vertical tab, backspace, form feed. *)
Definition escapedBytes : string :=
  string_of_list_ascii
    ["/"; "034"; "\"; "010"; "009"; "013"; "011"; "008"; "012"]%char.

(** The [switch s[i]] of the slow path: does one of its case values match? *)
Definition isEscapedCase (c : ascii) : bool :=
  existsb (Ascii.eqb c)
    ["010"; "009"; "013"; "011"; "008"; "012"; "\"; "/"; "034"]%char.

(** The code from the label [slowPath] on. *)
Definition jsonLenString_slowPath (s : string) : Z :=
  let n := fold_left (fun n c => if isEscapedCase c then Int.incr n else n)
                     (Utf8.range s) 0 in
  Int.add (Int.add n 2) (len s).

(** Whether the short-string switch reaches [goto slowPath].  The range over
    [escapedBytes], a string of bytes below [0x80], yields every index. *)
Definition gotoSlowPath (s : string) : bool :=
  match len s with
  | 0 => false
  | 1 => existsb (fun e => Ascii.eqb (at_ s 0) e) (Utf8.range escapedBytes)
  | _ => existsb (fun e => 0 <=? IndexByte s e) (Utf8.range escapedBytes)
  end.

Definition jsonLenString (s : string) : Z :=
  if len s <? 100 then
    if gotoSlowPath s then jsonLenString_slowPath s
    else Int.add 2 (len s)
  else jsonLenString_slowPath s.

(** [2 + ((len(b) * 4) / 3)]. *)
Definition jsonLenBytes (b : list byte) : Z :=
  Int.add 2 (Int.quo (Int.mul (lenl b) 4) 3).


(* ===================================================================== *)
(** * Values *)
(* ===================================================================== *)

Module reflect.

(** [reflect.Kind]. *)
Inductive Kind : Set :=
| Invalid | Bool
| Int | Int8 | Int16 | Int32 | Int64
| Uint | Uint8 | Uint16 | Uint32 | Uint64 | Uintptr
| Float32 | Float64 | Complex64 | Complex128
| Array | Chan | Func | Interface | Map | Ptr | Slice | String | Struct
| UnsafePointer.

Definition Kind_eq_dec (a b : Kind) : {a = b} + {a <> b}.
Proof. decide equality. Defined.

Definition Kind_eqb (a b : Kind) : bool :=
  if Kind_eq_dec a b then true else false.

(** A [reflect.Type], by the text [t.String()] gives for it. *)
Definition Type_ : Set := string.

End reflect.

(** A [reflect.Value] obtained from inside another one (an element, a map
    key, the target of a pointer, a field), seen through the two methods the
    program calls on it; [V] is the type of interface values. *)
Module Value.

Record t (V : Type) : Type := mk {
  CanInterface : bool;
  Interface : V
}.

Arguments mk {V}.
Arguments CanInterface {V}.
Arguments Interface {V}.

End Value.

(** The signed, unsigned and floating-point types of the type switch. *)
Inductive IntType : Set := Tint | Tint8 | Tint16 | Tint32 | Tint64.
Inductive UintType : Set := Tuint | Tuint8 | Tuint16 | Tuint32 | Tuint64.
Inductive FloatType : Set := Tfloat32 | Tfloat64.

(** A floating-point number.  The program converts it to [float64] and hands
    it to [strconv.AppendFloat(b[:0], v, 'g', -1, 64)], which is not part of
    this package: the number is carried by its IEEE 754 binary64 bits
    together with the text that call produces for it. *)
Record float64 : Set := mkFloat {
  Float64bits : Z;
  AppendFloat_g : list byte
}.

Inductive error : Set :=
| UnsupportedValueError (Str : string)          (* &json.UnsupportedValueError{Value: v, Str: ...} *)
| UnsupportedTypeError (t : reflect.Type_)      (* &json.UnsupportedTypeError{Type: t} *)
| Errorf (format : string)                      (* fmt.Errorf(format, v) *)
| Custom (msg : string).                        (* an error made outside this package *)

(** What [Length] returns: [(n, err)], with [None] for a nil error. *)
Definition result : Set := (Z * option error)%type.

(** The methods of a dynamic type that the type switch asks about.  [Some]
    says the type implements the interface, and holds what the call returns
    on the value at hand. *)
Record MethodSet : Set := mkMethods {
  LengthJSON : option Z;                              (* Lengther *)
  MarshalJSON : option (list byte * option error);    (* json.Marshaler *)
  MarshalText : option (list byte * option error)     (* encoding.TextMarshaler *)
}.

Definition noMethods : MethodSet := mkMethods None None None.

(** Modelled from the spec: the type [StructField] that [LookupStruct]
    returns a sequence of is not in [length.go].  The spec's Field Descriptor
    has an access path within the record, the externally visible name, and
    the omit-when-empty flag; the source reads them as [f.Index], [f.Name]
    and [f.Omitempty]. *)
Record StructField : Set := mkStructField {
  Index : list nat;
  Name : string;
  Omitempty : bool
}.

(** One turn of the loop of [jsonLenStruct]: a descriptor [f] of
    [LookupStruct(t)], in the order of that sequence, and the field
    [fv := v.FieldByIndex(f.Index)] it designates.  [isEmptyValue], which is
    not in [length.go] either, is carried by its result on [fv]. *)
Record StructEntry (V : Type) : Type := mkStructEntry {
  f : StructField;
  isEmptyValue_fv : bool;
  fv : Value.t V
}.

Arguments mkStructEntry {V}.
Arguments f {V}.
Arguments isEmptyValue_fv {V}.
Arguments fv {V}.

#[local] Set Warnings "-register-all".

(** A value of type [interface{}]: nil, or a dynamic type with its value.
    The types that the type switch of [Length] names have a constructor
    each; they have no methods ([json.Number] has none of the three asked
    about).  [VOther] is a value of any other type [t]: its method set and,
    by kind, what reflection finds in it. *)
Inductive value : Type :=
| VNil
| VBool (x : bool)
| VInt (t : IntType) (x : Z)
| VUint (t : UintType) (x : Z)
| VFloat (t : FloatType) (x : float64)
| VString (x : string)
| VBytes (x : list byte)
| VMapStringInterface (x : list (string * value))    (* in the order the range clause yields *)
| VSliceInterface (x : list value)
| VNumber (x : string)                               (* json.Number *)
| VOther (t : reflect.Type_) (ms : MethodSet) (r : rvalue)

(** What a [reflect.Value] holds, by [Kind]. *)
with rvalue : Type :=
| RInvalid                                            (* the zero Value *)
| RStruct (s : list (StructEntry value))
| RMap (m : list (Value.t value * value))       (* MapKeys(), with MapIndex(k).Interface() *)
| RSlice (elem : reflect.Kind) (s : list (Value.t value))
| RArray (s : list (Value.t value))
| RPtr (e : option (Value.t value))             (* None: IsNil() *)
| RInterface (e : option (Value.t value))
| RBool (x : bool)
| RInt (x : Z)                                        (* v.Int(), for the five signed kinds *)
| RUint (x : Z)                                       (* v.Uint(), Uintptr excepted *)
| RFloat (x : float64)
| RString (x : string)
| ROther (k : reflect.Kind).                          (* Uintptr, Complex64, Complex128, Chan, Func, UnsafePointer *)

Definition jsonLenFloat (v : float64) : Z := lenl (AppendFloat_g v).

(** [v.Bytes()] on a slice whose elements are of kind [Uint8]. *)
Definition Bytes (s : list (Value.t value)) : list byte :=
  map (fun e => match Value.Interface e with
                | VUint _ x | VOther _ _ (RUint x) =>
                    match Byte.of_N (Z.to_N x) with Some b => b | None => x00 end
                | _ => x00
                end) s.

(* ===================================================================== *)
(** * The composite length engine and the dispatcher *)
(* ===================================================================== *)

(** The functions that call back into [Length] take it as a parameter;
    [Length] below ties the knot by recursion on the value. *)
Section Engine.

Variable Length : value -> result.

(** The statements after a loop: they run when the loop ended without an
    early [return]. *)
Definition andThen (r : result) (k : Z -> Z) : result :=
  match r with
  | (n, None) => (k n, None)
  | (n, Some e) => (n, Some e)
  end.

Fixpoint jsonLenArray_loop (i : Z) (s : list (Value.t value)) (n : Z) : result :=
  match s with
  | [] => (n, None)
  | elem :: s' =>
      let n := if negb (i =? 0) then Int.incr n else n in
      if negb (Value.CanInterface elem)
      then (n, Some (Errorf "reflect: cannot call Interface on value %v"))
      else
        match Length (Value.Interface elem) with
        | (c, Some err) => (n, Some err)
        | (c, None) => jsonLenArray_loop (i + 1) s' (Int.add n c)   (* i < v.Len() *)
        end
  end.

Definition jsonLenArray (s : list (Value.t value)) : result :=
  andThen (jsonLenArray_loop 0 s 0) (fun n => Int.add n 2).

Fixpoint jsonLenMap_loop (i : Z) (m : list (Value.t value * value)) (n : Z) : result :=
  match m with
  | [] => (n, None)
  | (k, mv) :: m' =>
      if negb (Value.CanInterface k)
      then (n, Some (Errorf "reflect: cannot call Interface on value %v"))
      else
        let n := if negb (i =? 0) then Int.incr n else n in
        match Length (Value.Interface k) with
        | (c1, Some err) => (n, Some err)
        | (c1, None) =>
            match Length mv with
            | (c2, Some err) => (n, Some err)
            | (c2, None) =>
                jsonLenMap_loop (i + 1) m' (Int.add n (Int.add (Int.add c1 c2) 1))
            end
        end
  end.

Definition jsonLenMap (m : list (Value.t value * value)) : result :=
  andThen (jsonLenMap_loop 0 m 0) (fun n => Int.add n 2).

Fixpoint jsonLenStruct_loop (s : list (StructEntry value)) (n : Z) : result :=
  match s with
  | [] => (n, None)
  | e :: s' =>
      if Omitempty (f e) && isEmptyValue_fv e
      then jsonLenStruct_loop s' n
      else if negb (Value.CanInterface (fv e))
      then (n, Some (Errorf "reflect: cannot call Interface on %v"))
      else
        match Length (Value.Interface (fv e)) with
        | (c, Some err) => (n, Some err)
        | (c, None) =>
            let n := if negb (n =? 0) then Int.incr n else n in
            jsonLenStruct_loop s'
              (Int.add n (Int.add (Int.add (jsonLenString (Name (f e))) c) 1))
        end
  end.

Definition jsonLenStruct (s : list (StructEntry value)) : result :=
  andThen (jsonLenStruct_loop s 0) (fun n => Int.add n 2).

Fixpoint jsonLenSliceInterface_loop (s : list value) (n : Z) : result :=
  match s with
  | [] => (n, None)
  | v :: s' =>
      match Length v with
      | (c, Some err) => (n, Some err)
      | (c, None) => jsonLenSliceInterface_loop s' (Int.add n c)
      end
  end.

Definition jsonLenSliceInterface (s : list value) : result :=
  andThen (jsonLenSliceInterface_loop s 0)
    (fun n =>
       let c := lenl s in
       let n := if 1 <? c then Int.add n (Int.sub c 1) else n in
       Int.add n 2).

Fixpoint jsonLenMapStringInterface_loop (m : list (string * value)) (n : Z) : result :=
  match m with
  | [] => (n, None)
  | (k, v) :: m' =>
      match Length v with
      | (c, Some err) => (n, Some err)
      | (c, None) =>
          jsonLenMapStringInterface_loop m'
            (Int.add n (Int.add (Int.add (jsonLenString k) c) 1))
      end
  end.

Definition jsonLenMapStringInterface (m : list (string * value)) : result :=
  andThen (jsonLenMapStringInterface_loop m 0)
    (fun n =>
       let c := lenl m in
       let n := if 1 <? c then Int.add n (Int.sub c 1) else n in
       Int.add n 2).

(** [jsonLenV(v)], for a [v] of type [t] holding [r]. *)
Definition jsonLenV (t : reflect.Type_) (r : rvalue) : result :=
  match r with
  | RInvalid => (0, Some (UnsupportedValueError "the value is invalid"))
  | RStruct s => jsonLenStruct s
  | RMap m => jsonLenMap m
  | RSlice elem s =>
      if reflect.Kind_eqb elem reflect.Uint8
      then (jsonLenBytes (Bytes s), None)
      else jsonLenArray s
  | RPtr e | RInterface e =>
      match e with
      | None => (jsonLenNull, None)
      | Some elem =>
          if negb (Value.CanInterface elem)
          then (0, Some (Errorf "reflect: cannot call Interface on %v"))
          else Length (Value.Interface elem)
      end
  | RBool x => (jsonLenBool x, None)
  | RInt x => (jsonLenInt x, None)
  | RUint x => (jsonLenUint x, None)
  | RFloat x => (jsonLenFloat x, None)
  | RString x => (jsonLenString x, None)
  | RArray s => jsonLenArray s
  | ROther _ => (0, Some (UnsupportedTypeError t))
  end.

End Engine.

(** [Length(v)].  The cases of the type switch are tried in the order of the
    source; a constructor of [value] other than [VOther] is one of the types
    named there. *)
Fixpoint Length (v : value) : result :=
  match v with
  | VNil => (jsonLenNull, None)
  | VBool x => (jsonLenBool x, None)
  | VInt _ x => (jsonLenInt x, None)
  | VUint _ x => (jsonLenUint x, None)
  | VFloat _ x => (jsonLenFloat x, None)
  | VString x => (jsonLenString x, None)
  | VBytes x => (jsonLenBytes x, None)
  | VMapStringInterface x => jsonLenMapStringInterface Length x
  | VSliceInterface x => jsonLenSliceInterface Length x
  | VNumber x => (len x, None)
  | VOther t ms r =>
      match LengthJSON ms with
      | Some n => (n, None)
      | None =>
          match MarshalJSON ms with
          | Some (b, None) => (lenl b, None)
          | Some (b, Some err) => (0, Some err)
          | None =>
              match MarshalText ms with
              | Some (b, None) => (jsonLenString (string_of_list_byte b), None)
              | Some (b, Some err) => (0, Some err)
              | None => jsonLenV Length t r
              end
          end
      end
  end.

(* ===================================================================== *)
(** * The vocabulary of the specification *)
(* ===================================================================== *)

(** The bytes that take an escape, as the specification lists them: double
    quote, backslash, slash, newline, tab, carriage return, vertical tab,
    backspace, form feed. *)
Definition escapable : list ascii :=
  ["034"; "\"; "/"; "010"; "009"; "013"; "011"; "008"; "012"]%char.

Definition needsEscape (c : ascii) : bool := existsb (Ascii.eqb c) escapable.

(** The number of bytes of [s] that take an escape. *)
Definition countEscapes (s : string) : Z :=
  lenl (filter needsEscape (list_ascii_of_string s)).

(** The decimal representation of an integer, as the standard library
    prints it, and the number of its digits. *)
Definition decimal (v : Z) : string :=
  DecimalString.NilZero.string_of_int (Z.to_int v).

Definition digitCount (v : Z) : Z :=
  Z.of_nat (Decimal.nb_digits (N.to_uint (Z.abs_N v))).

(** The sum of a list of lengths. *)
Definition sumZ (l : list Z) : Z := fold_right Z.add 0 l.

(** The separator bytes of [n] items: [n - 1] when [n > 1], else none. *)
Definition separators (n : Z) : Z := if 1 <? n then n - 1 else 0.

(** The computed length of a value, and whether it was measured without
    error. *)
Definition lengthOf (v : value) : Z := fst (Length v).
Definition measures (v : value) : Prop := snd (Length v) = None.

(** The same for an element reached by reflection, which has to be
    accessible first. *)
Definition measuresR (e : Value.t value) : Prop :=
  Value.CanInterface e = true /\ measures (Value.Interface e).

(** A record field is emitted unless its descriptor says omit-when-empty and
    it is empty. *)
Definition emitted (e : StructEntry value) : bool :=
  negb (Omitempty (f e) && isEmptyValue_fv e).

(** What an emitted field adds: the quoted key, the colon, the value. *)
Definition fieldBytes (e : StructEntry value) : Z :=
  jsonLenString (Name (f e)) + 1 + lengthOf (Value.Interface (fv e)).

(** Two integers that an [int] cannot tell apart. *)
Definition weq (a b : Z) : Prop := Int.wrap a = Int.wrap b.

(** The first [k] bytes of [s] exist and are continuation bytes. *)
Fixpoint conts (k : nat) (s : string) : Prop :=
  match k, s with
  | O, _ => True
  | S k', String c t => Utf8.isCont c = true /\ conts k' t
  | S _, EmptyString => False
  end.

(** The separators [jsonLenArray]'s loop adds when it starts at index [i]. *)
Definition separatorsFrom (i n : Z) : Z := if i =? 0 then separators n else n.

(** What an entry of a [map[string]interface{}] adds: the quoted key, the
    colon, the value. *)
Definition entryBytes (kv : string * value) : Z :=
  jsonLenString (fst kv) + 1 + lengthOf (snd kv).

(** What an entry of a map reached by reflection adds: the key as [Length]
    measures it, the colon, the value. *)
Definition entryBytesR (kv : Value.t value * value) : Z :=
  lengthOf (Value.Interface (fst kv)) + 1 + lengthOf (snd kv).

Definition measuresEntry (kv : string * value) : Prop := measures (snd kv).

Definition measuresEntryR (kv : Value.t value * value) : Prop :=
  measuresR (fst kv) /\ measures (snd kv).

(** An emitted field that can be measured: it is accessible, its value
    measures to a non-negative length, and the formula for its quoted key is
    representable in an [int]. *)
Definition fieldOK (e : StructEntry value) : Prop :=
  emitted e = true ->
  measuresR (fv e)
  /\ 0 <= lengthOf (Value.Interface (fv e))
  /\ Int.fits (2 + len (Name (f e)) + countEscapes (Name (f e))).

(** The separators [jsonLenStruct]'s loop adds before [k] emitted fields when
    it has a running total of [n]. *)
Definition separatorsAfter (n k : Z) : Z := if n =? 0 then separators k else k.

(** An emitted field is accessible and measures. *)
Definition fieldMeasures (e : StructEntry value) : Prop :=
  emitted e = true -> measuresR (fv e).

(** The categories of the specification's resolution order. *)
Inductive category : Set :=
| CNull                (* 1. null *)
| CPrimitive           (* 2. fixed primitive shapes *)
| CContainer           (* 3. generic sequence, generic mapping with text keys *)
| COverride            (* 4. override-length capability *)
| CNumber              (* 5. numeric literal as text *)
| COwnJSON             (* 6. produces its own JSON encoding *)
| COwnText             (* 7. produces its own text encoding *)
| CIntrospection.      (* 8. introspection fallback *)

Definition categories : list category :=
  [CNull; CPrimitive; CContainer; COverride; CNumber; COwnJSON; COwnText;
   CIntrospection].

(** [reflect.TypeOf(v).String()] and what [reflect.ValueOf(v)] holds, for
    the types of the type switch too. *)
Definition TypeOf (v : value) : reflect.Type_ :=
  match v with
  | VNil => "<nil>"
  | VBool _ => "bool"
  | VInt Tint _ => "int"
  | VInt Tint8 _ => "int8"
  | VInt Tint16 _ => "int16"
  | VInt Tint32 _ => "int32"
  | VInt Tint64 _ => "int64"
  | VUint Tuint _ => "uint"
  | VUint Tuint8 _ => "uint8"
  | VUint Tuint16 _ => "uint16"
  | VUint Tuint32 _ => "uint32"
  | VUint Tuint64 _ => "uint64"
  | VFloat Tfloat32 _ => "float32"
  | VFloat Tfloat64 _ => "float64"
  | VString _ => "string"
  | VBytes _ => "[]uint8"
  | VMapStringInterface _ => "map[string]interface {}"
  | VSliceInterface _ => "[]interface {}"
  | VNumber _ => "json.Number"
  | VOther t _ _ => t
  end.

Definition ValueOf (v : value) : rvalue :=
  match v with
  | VNil => RInvalid
  | VBool x => RBool x
  | VInt _ x => RInt x
  | VUint _ x => RUint x
  | VFloat _ x => RFloat x
  | VString x => RString x
  | VBytes x =>
      RSlice reflect.Uint8
        (map (fun b => Value.mk true (VUint Tuint8 (Z.of_N (Byte.to_N b)))) x)
  | VMapStringInterface x =>
      RMap (map (fun kv => (Value.mk true (VString (fst kv)), snd kv)) x)
  | VSliceInterface x => RSlice reflect.Interface (map (Value.mk true) x)
  | VNumber x => RString x
  | VOther _ _ r => r
  end.

(** What the rule of a category computes for [v]; [None] when [v] is not in
    the category. *)
Definition rule (c : category) (v : value) : option result :=
  match c, v with
  | CNull, VNil => Some (jsonLenNull, None)
  | CPrimitive, VBool x => Some (jsonLenBool x, None)
  | CPrimitive, VInt _ x => Some (jsonLenInt x, None)
  | CPrimitive, VUint _ x => Some (jsonLenUint x, None)
  | CPrimitive, VFloat _ x => Some (jsonLenFloat x, None)
  | CPrimitive, VString x => Some (jsonLenString x, None)
  | CPrimitive, VBytes x => Some (jsonLenBytes x, None)
  | CContainer, VSliceInterface x => Some (jsonLenSliceInterface Length x)
  | CContainer, VMapStringInterface x => Some (jsonLenMapStringInterface Length x)
  | COverride, VOther _ ms _ =>
      match LengthJSON ms with
      | Some n => Some (n, None)
      | None => None
      end
  | CNumber, VNumber x => Some (len x, None)
  | COwnJSON, VOther _ ms _ =>
      match MarshalJSON ms with
      | Some (b, None) => Some (lenl b, None)
      | Some (b, Some err) => Some (0, Some err)
      | None => None
      end
  | COwnText, VOther _ ms _ =>
      match MarshalText ms with
      | Some (b, None) => Some (jsonLenString (string_of_list_byte b), None)
      | Some (b, Some err) => Some (0, Some err)
      | None => None
      end
  | CIntrospection, VNil => None
  | CIntrospection, _ => Some (jsonLenV Length (TypeOf v) (ValueOf v))
  | _, _ => None
  end.

(** The result of the first category, in the order of [cs], that [v] is
    in. *)
Fixpoint firstMatch (cs : list category) (v : value) : option (category * result) :=
  match cs with
  | [] => None
  | c :: cs' =>
      match rule c v with
      | Some r => Some (c, r)
      | None => firstMatch cs' v
      end
  end.

(** Two traversals of one value: they differ by the order in which the
    entries of its maps, at any depth, come out of the range clause or of
    [MapKeys]. *)
Inductive sameValue : value -> value -> Prop :=
| same_refl (v : value) : sameValue v v
| same_sym (v v' : value) : sameValue v v' -> sameValue v' v
| same_trans (u v w : value) : sameValue u v -> sameValue v w -> sameValue u w
| same_map (m m' : list (string * value)) :
    Permutation m m' ->
    sameValue (VMapStringInterface m) (VMapStringInterface m')
| same_rmap (t : reflect.Type_) (ms : MethodSet) (m m' : list (Value.t value * value)) :
    Permutation m m' ->
    sameValue (VOther t ms (RMap m)) (VOther t ms (RMap m'))
| same_in_slice (s1 s2 : list value) (x x' : value) :
    sameValue x x' ->
    sameValue (VSliceInterface (s1 ++ x :: s2)) (VSliceInterface (s1 ++ x' :: s2))
| same_in_map (m1 m2 : list (string * value)) (k : string) (x x' : value) :
    sameValue x x' ->
    sameValue (VMapStringInterface (m1 ++ (k, x) :: m2))
              (VMapStringInterface (m1 ++ (k, x') :: m2))
| same_in_rslice (t : reflect.Type_) (ms : MethodSet) (k : reflect.Kind)
                 (s1 s2 : list (Value.t value)) (acc : bool) (x x' : value) :
    sameValue x x' ->
    sameValue (VOther t ms (RSlice k (s1 ++ Value.mk acc x :: s2)))
              (VOther t ms (RSlice k (s1 ++ Value.mk acc x' :: s2)))
| same_in_rarray (t : reflect.Type_) (ms : MethodSet)
                 (s1 s2 : list (Value.t value)) (acc : bool) (x x' : value) :
    sameValue x x' ->
    sameValue (VOther t ms (RArray (s1 ++ Value.mk acc x :: s2)))
              (VOther t ms (RArray (s1 ++ Value.mk acc x' :: s2)))
| same_in_rmap_key (t : reflect.Type_) (ms : MethodSet)
                   (m1 m2 : list (Value.t value * value)) (acc : bool) (x x' mv : value) :
    sameValue x x' ->
    sameValue (VOther t ms (RMap (m1 ++ (Value.mk acc x, mv) :: m2)))
              (VOther t ms (RMap (m1 ++ (Value.mk acc x', mv) :: m2)))
| same_in_rmap_value (t : reflect.Type_) (ms : MethodSet)
                     (m1 m2 : list (Value.t value * value)) (k : Value.t value)
                     (x x' : value) :
    sameValue x x' ->
    sameValue (VOther t ms (RMap (m1 ++ (k, x) :: m2)))
              (VOther t ms (RMap (m1 ++ (k, x') :: m2)))
| same_in_rptr (t : reflect.Type_) (ms : MethodSet) (acc : bool) (x x' : value) :
    sameValue x x' ->
    sameValue (VOther t ms (RPtr (Some (Value.mk acc x))))
              (VOther t ms (RPtr (Some (Value.mk acc x'))))
| same_in_rinterface (t : reflect.Type_) (ms : MethodSet) (acc : bool) (x x' : value) :
    sameValue x x' ->
    sameValue (VOther t ms (RInterface (Some (Value.mk acc x))))
              (VOther t ms (RInterface (Some (Value.mk acc x'))))
| same_in_rstruct (t : reflect.Type_) (ms : MethodSet)
                  (s1 s2 : list (StructEntry value)) (fd : StructField)
                  (em acc : bool) (x x' : value) :
    sameValue x x' ->
    sameValue (VOther t ms (RStruct (s1 ++ mkStructEntry fd em (Value.mk acc x) :: s2)))
              (VOther t ms (RStruct (s1 ++ mkStructEntry fd em (Value.mk acc x') :: s2))).

(** Two values agree when each, if it measures, gives the other's result. *)
Definition agree (v v' : value) : Prop :=
  (measures v -> Length v' = Length v) /\ (measures v' -> Length v = Length v').

(** [base64.StdEncoding.EncodedLen(n)], of Go's [encoding/base64], which the
    comment of [jsonLenBytes] refers to: the length of the padded base64
    text of [n] bytes, [(n + 2) / 3 * 4]. *)
Definition EncodedLen (n : Z) : Z := (n + 2) / 3 * 4.

(** The values whose dynamic type is one of the types that the type switch
    of [Length] names before its interface cases. *)
Definition namedInSwitch (v : value) : bool :=
  match v with
  | VBool _ | VInt _ _ | VUint _ _ | VFloat _ _ | VString _ | VBytes _
  | VMapStringInterface _ | VSliceInterface _ => true
  | VNil | VNumber _ | VOther _ _ _ => false
  end.

(** What [Length] would return for [v] if the type switch fell through to
    its default case. *)
Definition byReflection (v : value) : result := jsonLenV Length (TypeOf v) (ValueOf v).

(** The map with the emitted fields of a record for entries: the name of the
    descriptor for key, the field for value. *)
Definition emittedFields (s : list (StructEntry value)) : list (string * value) :=
  map (fun e => (Name (f e), Value.Interface (fv e))) (filter emitted s).

(** A value that measures, to a length that is not negative. *)
Definition measuresNonneg (v : value) : Prop := measures v /\ 0 <= lengthOf v.

(** The length a record comes to: the braces, what its emitted fields add,
    and the separators between them. *)
Definition recordTotal (s : list (StructEntry value)) : Z :=
  2 + sumZ (map fieldBytes (filter emitted s)) + separators (lenl (filter emitted s)).

(** The values [Length] can measure, by their shape alone: no arithmetic is
    involved.  A value whose type has one of the three methods is judged by
    the first of them in the order of the type switch, and its contents are
    not looked at; otherwise every nested value that reflection reaches has
    to be accessible and measurable in turn, and of a kind [jsonLenV]
    handles. *)
Section Measurable.

Variable measurable : value -> bool.

Definition measurableElem (e : Value.t value) : bool :=
  Value.CanInterface e && measurable (Value.Interface e).

Definition measurableField (e : StructEntry value) : bool :=
  negb (emitted e) || measurableElem (fv e).

Definition measurableShape (r : rvalue) : bool :=
  match r with
  | RInvalid => false
  | RStruct s => forallb measurableField s
  | RMap m => forallb (fun kv => measurableElem (fst kv) && measurable (snd kv)) m
  | RSlice elem s => reflect.Kind_eqb elem reflect.Uint8 || forallb measurableElem s
  | RArray s => forallb measurableElem s
  | RPtr e | RInterface e =>
      match e with
      | None => true
      | Some elem => measurableElem elem
      end
  | RBool _ | RInt _ | RUint _ | RFloat _ | RString _ => true
  | ROther _ => false
  end.

End Measurable.

Fixpoint measurable (v : value) : bool :=
  match v with
  | VMapStringInterface x => forallb (fun kv => measurable (snd kv)) x
  | VSliceInterface x => forallb measurable x
  | VOther _ ms r =>
      match LengthJSON ms with
      | Some _ => true
      | None =>
          match MarshalJSON ms with
          | Some (_, None) => true
          | Some (_, Some _) => false
          | None =>
              match MarshalText ms with
              | Some (_, None) => true
              | Some (_, Some _) => false
              | None => measurableShape measurable r
              end
          end
      end
  | _ => true
  end.

(** The errors [length.go] makes itself. *)
Definition madeHere (e : error) : Prop :=
  (exists t : reflect.Type_, e = UnsupportedTypeError t)
  \/ e = UnsupportedValueError "the value is invalid"
  \/ e = Errorf "reflect: cannot call Interface on %v"
  \/ e = Errorf "reflect: cannot call Interface on value %v".

(** The errors that the [MarshalJSON] and [MarshalText] methods of a value
    and of the values nested in it return. *)
Section MethodErrors.

Variable methodErrors : value -> list error.

Definition methodErrorsShape (r : rvalue) : list error :=
  match r with
  | RStruct s => flat_map (fun e => methodErrors (Value.Interface (fv e))) s
  | RMap m =>
      flat_map (fun kv => methodErrors (Value.Interface (fst kv)) ++ methodErrors (snd kv)) m
  | RSlice _ s | RArray s => flat_map (fun e => methodErrors (Value.Interface e)) s
  | RPtr (Some elem) | RInterface (Some elem) => methodErrors (Value.Interface elem)
  | _ => []
  end.

End MethodErrors.

Definition ownErrors (ms : MethodSet) : list error :=
  match MarshalJSON ms with Some (_, Some e) => [e] | _ => [] end
  ++ match MarshalText ms with Some (_, Some e) => [e] | _ => [] end.

Fixpoint methodErrors (v : value) : list error :=
  match v with
  | VMapStringInterface x => flat_map (fun kv => methodErrors (snd kv)) x
  | VSliceInterface x => flat_map methodErrors x
  | VOther _ ms r => ownErrors ms ++ methodErrorsShape methodErrors r
  | _ => []
  end.


(** The elements of an array or a slice of bytes, as reflection hands them
    out: accessible values of type [uint8]. *)
Definition byteElems (b : list byte) : list (Value.t value) :=
  map (fun x => Value.mk true (VUint Tuint8 (Z.of_N (Byte.to_N x)))) b.

(* ===================================================================== *)
(** * The scenarios of the specification *)
(* ===================================================================== *)

Example Length_nil : Length VNil = (4, None).
Proof. reflexivity. Qed.

Example Length_true : Length (VBool true) = (4, None).
Proof. reflexivity. Qed.

Example Length_false : Length (VBool false) = (5, None).
Proof. reflexivity. Qed.

Example Length_minus_123 : Length (VInt Tint (-123)) = (4, None).
Proof. reflexivity. Qed.

(** [[]int{1, 2, 3}], measured by reflection. *)
Example Length_ints :
  Length (VOther "[]int" noMethods
            (RSlice reflect.Int [Value.mk true (VInt Tint 1);
                                 Value.mk true (VInt Tint 2);
                                 Value.mk true (VInt Tint 3)]))
  = (7, None).
Proof. reflexivity. Qed.

(** The bytes of [escapedBytes], by their codes. *)
Example escapedBytes_codes :
  map nat_of_ascii (list_ascii_of_string escapedBytes)
  = [47; 34; 92; 10; 9; 13; 11; 8; 12]%nat.
Proof. reflexivity. Qed.

(** A string of two-byte and three-byte runes: the range clause yields the
    first byte of each, and of a stray continuation byte. *)
Example range_runes :
  map nat_of_ascii
      (Utf8.range (string_of_list_ascii
                     (map ascii_of_nat [195; 169; 47; 226; 130; 172; 128; 34]%nat)))
  = [195; 47; 226; 128; 34]%nat.
Proof. reflexivity. Qed.

(* ===================================================================== *)
(** * Facts about machine integers *)
(* ===================================================================== *)

Lemma wrap_fits (z : Z) : Int.fits z -> Int.wrap z = z.
Proof.
  unfold Int.fits, Int.wrap, Int.MinInt, Int.MaxInt, Int.size. simpl Z.sub.
  intros H. rewrite Z.mod_small; lia.
Qed.

Lemma fits_wrap (z : Z) : Int.fits (Int.wrap z).
Proof.
  unfold Int.fits, Int.wrap, Int.MinInt, Int.MaxInt, Int.size. simpl Z.sub.
  pose proof (Z.mod_pos_bound (z + 2 ^ 63) (2 ^ 64)). lia.
Qed.

Lemma wrap_add_l (a b : Z) : Int.wrap (Int.wrap a + b) = Int.wrap (a + b).
Proof.
  unfold Int.wrap. f_equal.
  replace ((a + 2 ^ (Int.size - 1)) mod 2 ^ Int.size - 2 ^ (Int.size - 1) + b + 2 ^ (Int.size - 1))
    with ((a + 2 ^ (Int.size - 1)) mod 2 ^ Int.size + b) by lia.
  rewrite Zplus_mod_idemp_l. f_equal. lia.
Qed.

Lemma wrap_add_r (a b : Z) : Int.wrap (a + Int.wrap b) = Int.wrap (a + b).
Proof. rewrite Z.add_comm, wrap_add_l. f_equal. lia. Qed.

Lemma wrap_wrap (a : Z) : Int.wrap (Int.wrap a) = Int.wrap a.
Proof. apply wrap_fits, fits_wrap. Qed.

Lemma MaxInt_val : Int.MaxInt = 9223372036854775807.
Proof. reflexivity. Qed.

Lemma MaxUint_val : Int.MaxUint = 18446744073709551615.
Proof. reflexivity. Qed.

Lemma MinInt_val : Int.MinInt = -9223372036854775808.
Proof. reflexivity. Qed.

Lemma fits_iff (z : Z) :
  Int.fits z <-> -9223372036854775808 <= z <= 9223372036854775807.
Proof. unfold Int.fits. rewrite MaxInt_val, MinInt_val. reflexivity. Qed.

Lemma fitsb_fits (z : Z) : Int.fitsb z = true <-> Int.fits z.
Proof. unfold Int.fitsb, Int.fits. rewrite andb_true_iff, !Z.leb_le. tauto. Qed.

#[local] Instance weq_Equivalence : Equivalence weq.
Proof.
  split; unfold weq; [intros a | intros a b | intros a b c]; congruence.
Qed.

#[local] Instance weq_add : Proper (weq ==> weq ==> weq) Z.add.
Proof.
  intros a a' Ha b b' Hb. unfold weq in *.
  rewrite <- (wrap_add_l a), <- (wrap_add_r _ b), Ha, Hb, wrap_add_l, wrap_add_r.
  reflexivity.
Qed.

#[local] Instance weq_opp : Proper (weq ==> weq) Z.opp.
Proof.
  intros a a' Ha. unfold weq, Int.wrap in *.
  assert (H : (a + 2 ^ (Int.size - 1)) mod 2 ^ Int.size
              = (a' + 2 ^ (Int.size - 1)) mod 2 ^ Int.size) by lia.
  f_equal.
  assert (Ha2 : a mod 2 ^ Int.size = a' mod 2 ^ Int.size).
  { replace a with (a + 2 ^ (Int.size - 1) + - 2 ^ (Int.size - 1)) by lia.
    replace a' with (a' + 2 ^ (Int.size - 1) + - 2 ^ (Int.size - 1)) by lia.
    rewrite <- Zplus_mod_idemp_l, H, Zplus_mod_idemp_l. reflexivity. }
  rewrite <- (Zplus_mod_idemp_l (- a)), <- (Zplus_mod_idemp_l (- a')).
  f_equal. f_equal.
  rewrite <- (Z.sub_0_l a), <- (Z.sub_0_l a').
  rewrite <- Zminus_mod_idemp_r, Ha2, Zminus_mod_idemp_r. reflexivity.
Qed.

#[local] Instance weq_sub : Proper (weq ==> weq ==> weq) Z.sub.
Proof.
  intros a a' Ha b b' Hb. unfold Z.sub. rewrite Ha, Hb. reflexivity.
Qed.

Lemma wrap_weq (a : Z) : weq (Int.wrap a) a.
Proof. apply wrap_wrap. Qed.

(** Any sum of [int] additions is the wrapped mathematical sum: the tactic
    turns a goal [Int.wrap a = Int.wrap b] into [weq a' b'], with every
    wrap-around inside [a] and [b] taken out. *)
Ltac unwrap :=
  unfold Int.incr, Int.add, Int.sub in *;
  repeat match goal with
         | H : Int.wrap ?a = Int.wrap ?b |- _ => change (weq a b) in H
         end;
  match goal with
  | |- Int.wrap ?a = Int.wrap ?b => change (weq a b)
  | |- _ => idtac
  end;
  rewrite ?wrap_weq.

Ltac weq_lia := unfold weq; f_equal; lia.

(* ===================================================================== *)
(** * Strings *)
(* ===================================================================== *)

Lemma isEscapedCase_needsEscape (c : ascii) : isEscapedCase c = needsEscape c.
Proof. destruct c as [[] [] [] [] [] [] [] []]; reflexivity. Qed.

Lemma escapedBytes_needsEscape (c : ascii) :
  existsb (fun e => Ascii.eqb c e) (Utf8.range escapedBytes) = needsEscape c.
Proof. destruct c as [[] [] [] [] [] [] [] []]; reflexivity. Qed.

(** A continuation byte of a multi-byte rune is never one that takes an
    escape. *)
Lemma isCont_not_escaped (c : ascii) :
  Utf8.isCont c = true -> needsEscape c = false.
Proof. destruct c as [[] [] [] [] [] [] [] []]; simpl; intros H; try reflexivity; discriminate H. Qed.

(** A rune of width [w] is followed by [w - 1] continuation bytes, so the
    range clause never steps over a byte below [0x80]. *)
Lemma width_conts (c : ascii) (t : string) :
  conts (Nat.pred (Utf8.width (String c t))) t.
Proof.
  unfold Utf8.width.
  repeat match goal with
         | |- context [if ?b then _ else _] => destruct b eqn:?
         | |- context [match ?s with EmptyString => _ | String _ _ => _ end] => destruct s
         end; simpl; auto;
  repeat match goal with
         | H : _ && _ = true |- _ => apply andb_true_iff in H; destruct H
         end; auto.
Qed.

Lemma range_from_escapes (s : string) : forall skip : nat,
  conts skip s ->
  filter needsEscape (Utf8.range_from skip s)
  = filter needsEscape (list_ascii_of_string s).
Proof.
  induction s as [|c t IH]; intros skip Hs; [reflexivity|].
  destruct skip as [|k].
  - cbn [Utf8.range_from list_ascii_of_string filter].
    rewrite (IH _ (width_conts c t)). reflexivity.
  - destruct Hs as [Hc Ht].
    cbn [Utf8.range_from list_ascii_of_string filter].
    rewrite (isCont_not_escaped c Hc). apply IH, Ht.
Qed.

Lemma lenl_cons {A : Type} (a : A) (l : list A) : lenl (a :: l) = 1 + lenl l.
Proof. unfold lenl. cbn [List.length]. lia. Qed.

Lemma lenl_nonneg {A : Type} (l : list A) : 0 <= lenl l.
Proof. unfold lenl. lia. Qed.

Lemma len_String (c : ascii) (s : string) : len (String c s) = 1 + len s.
Proof. unfold len. cbn [String.length]. lia. Qed.

Lemma len_nonneg (s : string) : 0 <= len s.
Proof. unfold len. lia. Qed.

(** The counting loop of the slow path, up to wrap-around. *)
Lemma slowPath_count (l : list ascii) : forall n : Z,
  Int.wrap (fold_left (fun n c => if isEscapedCase c then Int.incr n else n) l n)
  = Int.wrap (n + lenl (filter needsEscape l)).
Proof.
  induction l as [|c l IH]; intros n; cbn [fold_left filter].
  - f_equal. unfold lenl. simpl. lia.
  - rewrite IH, isEscapedCase_needsEscape.
    destruct (needsEscape c); [|reflexivity].
    rewrite lenl_cons. unwrap. weq_lia.
Qed.

Lemma slowPath_wrap (s : string) :
  jsonLenString_slowPath s = Int.wrap (2 + len s + countEscapes s).
Proof.
  unfold jsonLenString_slowPath, countEscapes.
  set (n := fold_left _ _ _).
  assert (Hn : Int.wrap n = Int.wrap (0 + lenl (filter needsEscape (Utf8.range s))))
    by apply slowPath_count.
  unfold Utf8.range in Hn. rewrite (range_from_escapes s 0 I) in Hn.
  unwrap. rewrite Hn. weq_lia.
Qed.

Lemma IndexByte_from_found (s : string) (c : ascii) : forall i : Z,
  0 <= i ->
  (0 <=? IndexByte_from i s c) = existsb (Ascii.eqb c) (list_ascii_of_string s).
Proof.
  induction s as [|x t IH]; intros i Hi; cbn [IndexByte_from list_ascii_of_string existsb].
  - reflexivity.
  - rewrite (Ascii.eqb_sym c x). destruct (Ascii.eqb x c).
    + apply Z.leb_le, Hi.
    + apply IH. lia.
Qed.

Lemma In_escapable (c : ascii) :
  In c (Utf8.range escapedBytes) <-> needsEscape c = true.
Proof.
  unfold needsEscape. rewrite existsb_exists. split.
  - intros H. exists c. split; [|apply Ascii.eqb_refl].
    cbv in H. cbv. tauto.
  - intros [e [He Hce]]. apply Ascii.eqb_eq in Hce. subst e.
    cbv in He. cbv. tauto.
Qed.

(** The short-string switch leaves for the slow path exactly when some byte
    of the string takes an escape. *)
Lemma gotoSlowPath_spec (s : string) :
  gotoSlowPath s = existsb needsEscape (list_ascii_of_string s).
Proof.
  unfold gotoSlowPath.
  destruct s as [|c [|c' t]].
  - reflexivity.
  - change (len (String c EmptyString)) with 1.
    change (at_ (String c EmptyString) 0) with c.
    cbn [list_ascii_of_string existsb]. rewrite orb_false_r.
    apply escapedBytes_needsEscape.
  - assert (Hlen : exists p, len (String c (String c' t)) = Z.pos (Pos.succ p)).
    { exists (Pos.of_succ_nat (String.length t)). unfold len. cbn [String.length]. lia. }
    destruct Hlen as [p ->].
    destruct (Pos.succ p) eqn:Hp; try (exfalso; revert Hp; apply Pos.succ_not_1);
    (apply eq_true_iff_eq; rewrite !existsb_exists; split;
     [ intros [e [He Hi]]; exists e; split;
       [ unfold IndexByte in Hi; rewrite IndexByte_from_found in Hi by lia;
         apply existsb_exists in Hi; destruct Hi as [x [Hx Hex]];
         apply Ascii.eqb_eq in Hex; subst x; exact Hx
       | apply In_escapable, He ]
     | intros [e [He Hn]]; exists e; split;
       [ apply In_escapable, Hn
       | unfold IndexByte; rewrite IndexByte_from_found by lia;
         apply existsb_exists; exists e; split; [exact He | apply Ascii.eqb_refl] ] ]).
Qed.

Lemma countEscapes_zero (s : string) :
  countEscapes s = 0 <-> existsb needsEscape (list_ascii_of_string s) = false.
Proof.
  unfold countEscapes.
  induction (list_ascii_of_string s) as [|c l IH]; cbn [filter existsb].
  - split; reflexivity.
  - destruct (needsEscape c); cbn [orb].
    + rewrite lenl_cons. pose proof (lenl_nonneg (filter needsEscape l)).
      split; [lia | discriminate].
    + exact IH.
Qed.

Lemma countEscapes_bounds (s : string) : 0 <= countEscapes s <= len s.
Proof.
  unfold countEscapes.
  induction s as [|c t IH]; cbn [list_ascii_of_string filter].
  - unfold lenl, len. simpl. lia.
  - rewrite len_String. destruct (needsEscape c); [rewrite lenl_cons|]; lia.
Qed.

(** [jsonLenString], up to wrap-around: both paths compute the formula. *)
Lemma jsonLenString_wrap (s : string) :
  jsonLenString s = Int.wrap (2 + len s + countEscapes s).
Proof.
  unfold jsonLenString.
  destruct (len s <? 100); [|apply slowPath_wrap].
  destruct (gotoSlowPath s) eqn:Hg; [apply slowPath_wrap|].
  rewrite gotoSlowPath_spec in Hg. apply countEscapes_zero in Hg.
  rewrite Hg. unfold Int.add. f_equal. lia.
Qed.

(** C1.  For every string [s] whose formula value is representable in an
    [int], [Length] succeeds and returns 2 for the quotes, plus the number of
    bytes of [s], plus 1 for every byte of [s] that is a double quote, a
    backslash, a slash, a newline, a tab, a carriage return, a vertical tab,
    a backspace or a form feed.  The counting slow path returns the same
    value on every such string, and the short path, taken exactly when [s]
    is shorter than 100 bytes and holds no such byte, returns [2 + len s],
    which is the formula's value there. *)
Theorem Length_string (s : string) :
  Int.fits (2 + len s + countEscapes s) ->
  Length (VString s) = (2 + len s + countEscapes s, None)
  /\ jsonLenString_slowPath s = 2 + len s + countEscapes s
  /\ ((len s <? 100) && negb (gotoSlowPath s) = true
      <-> len s < 100 /\ countEscapes s = 0)
  /\ ((len s <? 100) && negb (gotoSlowPath s) = true ->
      jsonLenString s = 2 + len s).
Proof.
  intros Hfits.
  assert (Hfast : (len s <? 100) && negb (gotoSlowPath s) = true
                  <-> len s < 100 /\ countEscapes s = 0).
  { rewrite andb_true_iff, Z.ltb_lt, negb_true_iff, gotoSlowPath_spec.
    rewrite <- countEscapes_zero. reflexivity. }
  split; [|split; [|split]].
  - cbn [Length]. rewrite jsonLenString_wrap, wrap_fits by exact Hfits. reflexivity.
  - rewrite slowPath_wrap. apply wrap_fits, Hfits.
  - exact Hfast.
  - intros H. apply Hfast in H. destruct H as [_ H].
    rewrite jsonLenString_wrap, wrap_fits by exact Hfits. lia.
Qed.

Lemma Length_string_witness :
  Int.fits (2 + len "a/b" + countEscapes "a/b")
  /\ Length (VString "a/b") = (2 + len "a/b" + countEscapes "a/b", None).
Proof.
  assert (H : Int.fits (2 + len "a/b" + countEscapes "a/b"))
    by (apply fitsb_fits; reflexivity).
  split; [exact H | exact (proj1 (Length_string "a/b" H))].
Defined.

(** C6, as stated, does not hold: the call returns 6. *)
Lemma Length_a_slash_b_not_7 : Length (VString "a/b") <> (7, None).
Proof. cbv. discriminate. Qed.

(** C6, amended.  [Length] applied to the three-byte string [a/b] returns
    the pair (6, nil): 2 for the quotes, 3 for the bytes, 1 for the slash. *)
Theorem Length_a_slash_b : Length (VString "a/b") = (6, None).
Proof. reflexivity. Qed.

(* ===================================================================== *)
(** * Integers *)
(* ===================================================================== *)

Module DecimalDigits.

Import Decimal.
Local Open Scope N_scope.

Lemma usize_nb_digits (d : uint) :
  DecimalPos.Unsigned.usize d = N.of_nat (nb_digits d).
Proof.
  induction d; cbn [DecimalPos.Unsigned.usize nb_digits];
    rewrite ?IHd, ?Nat2N.inj_succ; reflexivity.
Qed.

(** A little-endian numeral of [k] digits denotes a number below [10^k]. *)
Lemma of_lu_upper (d : uint) :
  DecimalPos.Unsigned.of_lu d < 10 ^ N.of_nat (nb_digits d).
Proof.
  induction d; cbn [DecimalPos.Unsigned.of_lu nb_digits];
    rewrite ?Nat2N.inj_succ, ?N.pow_succ_r'; lia.
Qed.

(** A numeral without leading zero denotes at least [10^(k-1)]. *)
Lemma of_uint_lower (d : uint) :
  d <> Nil -> nzhead d = d ->
  10 ^ N.of_nat (Nat.pred (nb_digits d)) <= Pos.of_uint d.
Proof.
  intros Hnil Hnz.
  rewrite DecimalPos.Unsigned.of_uint_alt.
  destruct d as [|d|d|d|d|d|d|d|d|d|d]; try congruence;
    try (unfold rev; cbn [revapp nb_digits Nat.pred];
         rewrite DecimalPos.Unsigned.of_lu_revapp, usize_nb_digits;
         cbn [DecimalPos.Unsigned.of_lu]; nia).
  exfalso. cbn [nzhead] in Hnz.
  pose proof (DecimalFacts.nb_digits_nzhead d) as H.
  rewrite Hnz in H. cbn [nb_digits] in H. lia.
Qed.

Lemma to_uint_nzhead (p : positive) : nzhead (Pos.to_uint p) = Pos.to_uint p.
Proof.
  pose proof (DecimalPos.Unsigned.to_of (Pos.to_uint p)) as H.
  rewrite DecimalPos.Unsigned.of_to in H. cbn [N.to_uint] in H.
  pose proof (DecimalPos.Unsigned.to_uint_nonzero p) as Hz.
  unfold unorm in H.
  destruct (nzhead (Pos.to_uint p)); try (symmetry; exact H).
  exfalso. apply Hz. rewrite H. reflexivity.
Qed.

(** The printed numeral of a positive number [p] has the [k] digits for
    which [10^(k-1) <= p < 10^k]. *)
Lemma to_uint_bounds (p : positive) :
  let k := nb_digits (Pos.to_uint p) in
  (1 <= k)%nat
  /\ 10 ^ N.of_nat (Nat.pred k) <= N.pos p < 10 ^ N.of_nat k.
Proof.
  intros k. subst k.
  pose proof (DecimalPos.Unsigned.to_uint_nonnil p) as Hnil.
  pose proof (of_uint_lower _ Hnil (to_uint_nzhead p)) as Hlo.
  pose proof (of_lu_upper (rev (Pos.to_uint p))) as Hup.
  rewrite <- DecimalPos.Unsigned.of_uint_alt, DecimalFacts.nb_digits_rev in Hup.
  rewrite DecimalPos.Unsigned.of_to in Hlo, Hup.
  repeat split; try assumption.
  destruct (Pos.to_uint p); cbn [nb_digits]; try lia. congruence.
Qed.

Lemma length_string_of_uint (d : uint) :
  String.length (DecimalString.NilEmpty.string_of_uint d) = nb_digits d.
Proof.
  induction d; cbn [DecimalString.NilEmpty.string_of_uint String.length nb_digits];
    congruence.
Qed.

End DecimalDigits.

Lemma digitCount_0 : digitCount 0 = 1.
Proof. reflexivity. Qed.

(** For [v] other than zero, [digitCount v] is the [k] with
    [10^(k-1) <= |v| < 10^k]. *)
Lemma digitCount_bounds (v : Z) :
  v <> 0 ->
  1 <= digitCount v
  /\ 10 ^ (digitCount v - 1) <= Z.abs v < 10 ^ digitCount v.
Proof.
  intros Hv. unfold digitCount.
  assert (Hp : exists p, Z.abs_N v = N.pos p /\ Z.abs v = Z.pos p).
  { destruct v as [|p|p]; [congruence| |]; exists p; split; reflexivity. }
  destruct Hp as [p [-> ->]]. cbn [N.to_uint].
  destruct (DecimalDigits.to_uint_bounds p) as [Hk [Hlo Hup]].
  set (k := Decimal.nb_digits (Pos.to_uint p)) in *.
  apply N2Z.inj_le in Hlo. apply N2Z.inj_lt in Hup.
  rewrite N2Z.inj_pow in Hlo, Hup. rewrite !nat_N_Z in Hlo, Hup.
  cbn [Z.of_N] in Hlo, Hup.
  replace (Z.of_nat k - 1) with (Z.of_nat (Nat.pred k)) by lia.
  repeat split; try assumption. lia.
Qed.

(** The decimal text of [v] has [digitCount v] digits after an optional
    minus sign. *)
Lemma len_decimal (v : Z) :
  len (decimal v) = digitCount v + (if v <? 0 then 1 else 0).
Proof.
  unfold decimal, digitCount, len.
  assert (Hu : forall p, String.length (DecimalString.NilZero.string_of_uint (Pos.to_uint p))
                         = Decimal.nb_digits (Pos.to_uint p)).
  { intros p. pose proof (DecimalPos.Unsigned.to_uint_nonnil p) as Hnil.
    unfold DecimalString.NilZero.string_of_uint.
    destruct (Pos.to_uint p) eqn:E; try congruence;
      rewrite <- E; apply DecimalDigits.length_string_of_uint. }
  destruct v as [|p|p]; cbn [Z.to_int Z.abs_N N.to_uint DecimalString.NilZero.string_of_int].
  - reflexivity.
  - rewrite Hu. change (Z.pos p <? 0) with false. lia.
  - cbn [String.length]. rewrite Hu. change (Z.neg p <? 0) with true. lia.
Qed.

(** One turn of the digit loops. *)
Lemma jsonLenInt_loop_step (v n : Z) :
  jsonLenInt_loop v n
  = if v =? 0 then n else jsonLenInt_loop (Int.quo v 10) (Int.incr n).
Proof.
  rewrite jsonLenInt_loop_equation_1.
  destruct (Z.eq_dec v 0) as [->|H]; cbn [jsonLenInt_loop_unfold_clause_1].
  - reflexivity.
  - destruct (Z.eqb_spec v 0); [contradiction|reflexivity].
Qed.

Lemma jsonLenUint_loop_step (v n : Z) :
  jsonLenUint_loop v n
  = if v =? 0 then n else jsonLenUint_loop (Int.uquo v 10) (Int.incr n).
Proof.
  rewrite jsonLenUint_loop_equation_1.
  destruct (Z.eq_dec v 0) as [->|H]; cbn [jsonLenUint_loop_unfold_clause_1].
  - reflexivity.
  - destruct (Z.eqb_spec v 0); [contradiction|reflexivity].
Qed.

(** Dividing by ten takes one digit away. *)
Lemma quot10_bounds (v : Z) (k : Z) :
  0 <= k ->
  10 ^ (k + 1) <= Z.abs v < 10 ^ (k + 2) ->
  10 ^ k <= Z.abs (v ÷ 10) < 10 ^ (k + 1).
Proof.
  intros Hk [Hlo Hup].
  rewrite <- Z.quot_abs by lia. change (Z.abs 10) with 10.
  rewrite Z.quot_div_nonneg by lia.
  replace (k + 2) with (Z.succ (k + 1)) in Hup by lia.
  rewrite Z.pow_succ_r in Hup by lia.
  replace (k + 1) with (Z.succ k) in Hlo by lia.
  rewrite Z.pow_succ_r in Hlo by lia.
  split.
  - apply Z.div_le_lower_bound; lia.
  - apply Z.div_lt_upper_bound; lia.
Qed.

Lemma quot10_small (v : Z) : 10 ^ 0 <= Z.abs v < 10 ^ (0 + 1) -> v ÷ 10 = 0.
Proof.
  intros H. change (10 ^ 0) with 1 in H. change (10 ^ (0 + 1)) with 10 in H.
  apply Z.quot_small_iff; lia.
Qed.

(** A number of [k + 1] digits keeps the loop going for [k + 1] turns. *)
Lemma jsonLenInt_loop_digits (k : nat) : forall v n : Z,
  10 ^ Z.of_nat k <= Z.abs v < 10 ^ (Z.of_nat k + 1) ->
  jsonLenInt_loop v n = Int.wrap (n + (Z.of_nat k + 1)).
Proof.
  induction k as [|k IH]; intros v n Hv.
  - assert (Hnz : v <> 0) by (change (10 ^ Z.of_nat 0) with 1 in Hv; lia).
    rewrite jsonLenInt_loop_step. destruct (Z.eqb_spec v 0); [contradiction|].
    unfold Int.quo. rewrite (quot10_small v Hv).
    rewrite jsonLenInt_loop_step. cbn. reflexivity.
  - assert (Hnz : v <> 0).
    { pose proof (Z.pow_pos_nonneg 10 (Z.of_nat (S k))). lia. }
    rewrite jsonLenInt_loop_step. destruct (Z.eqb_spec v 0); [contradiction|].
    unfold Int.quo. rewrite IH.
    + unwrap. weq_lia.
    + apply quot10_bounds; [lia|].
      replace (Z.of_nat k + 1) with (Z.of_nat (S k)) by lia.
      replace (Z.of_nat k + 2) with (Z.of_nat (S k) + 1) by lia. exact Hv.
Qed.

Lemma jsonLenUint_loop_digits (k : nat) : forall v n : Z,
  10 ^ Z.of_nat k <= Z.abs v < 10 ^ (Z.of_nat k + 1) ->
  jsonLenUint_loop v n = Int.wrap (n + (Z.of_nat k + 1)).
Proof.
  induction k as [|k IH]; intros v n Hv.
  - assert (Hnz : v <> 0) by (change (10 ^ Z.of_nat 0) with 1 in Hv; lia).
    rewrite jsonLenUint_loop_step. destruct (Z.eqb_spec v 0); [contradiction|].
    unfold Int.uquo. rewrite (quot10_small v Hv).
    rewrite jsonLenUint_loop_step. cbn. reflexivity.
  - assert (Hnz : v <> 0).
    { pose proof (Z.pow_pos_nonneg 10 (Z.of_nat (S k))). lia. }
    rewrite jsonLenUint_loop_step. destruct (Z.eqb_spec v 0); [contradiction|].
    unfold Int.uquo. rewrite IH.
    + unwrap. weq_lia.
    + apply quot10_bounds; [lia|].
      replace (Z.of_nat k + 1) with (Z.of_nat (S k)) by lia.
      replace (Z.of_nat k + 2) with (Z.of_nat (S k) + 1) by lia. exact Hv.
Qed.

(** A 64-bit number has at most 20 decimal digits. *)
Lemma digitCount_small (v : Z) :
  Z.abs v <= Int.MaxUint -> digitCount v <= 20.
Proof.
  intros Hv. destruct (Z.eq_dec v 0) as [->|Hnz]; [rewrite digitCount_0; lia|].
  destruct (digitCount_bounds v Hnz) as [H1 [Hlo _]].
  destruct (Z_le_gt_dec (digitCount v) 20) as [|Hgt]; [assumption|exfalso].
  assert (10 ^ 20 <= 10 ^ (digitCount v - 1)) by (apply Z.pow_le_mono_r; lia).
  unfold Int.MaxUint, Int.size in Hv. lia.
Qed.

Lemma jsonLenInt_wrap (v : Z) :
  jsonLenInt v = Int.wrap (digitCount v + (if v <? 0 then 1 else 0)).
Proof.
  unfold jsonLenInt. destruct (Z.eqb_spec v 0) as [->|Hnz]; [reflexivity|].
  destruct (digitCount_bounds v Hnz) as [H1 Hb].
  rewrite (jsonLenInt_loop_digits (Z.to_nat (digitCount v - 1))).
  - destruct (v <? 0); unwrap; weq_lia.
  - rewrite Z2Nat.id by lia.
    replace (digitCount v - 1 + 1) with (digitCount v) by lia. exact Hb.
Qed.

Lemma jsonLenUint_wrap (v : Z) : jsonLenUint v = Int.wrap (digitCount v).
Proof.
  unfold jsonLenUint. destruct (Z.eqb_spec v 0) as [->|Hnz]; [reflexivity|].
  destruct (digitCount_bounds v Hnz) as [H1 Hb].
  rewrite (jsonLenUint_loop_digits (Z.to_nat (digitCount v - 1))).
  - f_equal. lia.
  - rewrite Z2Nat.id by lia.
    replace (digitCount v - 1 + 1) with (digitCount v) by lia. exact Hb.
Qed.

Lemma jsonLenInt_digits (v : Z) :
  Z.abs v <= Int.MaxUint ->
  jsonLenInt v = digitCount v + (if v <? 0 then 1 else 0).
Proof.
  intros Hv. rewrite jsonLenInt_wrap. apply wrap_fits.
  pose proof (digitCount_small v Hv).
  assert (0 <= digitCount v) by (unfold digitCount; lia).
  unfold Int.fits, Int.MinInt, Int.MaxInt, Int.size. cbn. destruct (v <? 0); lia.
Qed.

Lemma jsonLenUint_digits (v : Z) :
  Z.abs v <= Int.MaxUint -> jsonLenUint v = digitCount v.
Proof.
  intros Hv. rewrite jsonLenUint_wrap. apply wrap_fits.
  pose proof (digitCount_small v Hv).
  assert (0 <= digitCount v) by (unfold digitCount; lia).
  unfold Int.fits, Int.MinInt, Int.MaxInt, Int.size. cbn. lia.
Qed.

(** C7.  For every signed integer [v] (of any of the five signed types, in
    the range of [int64]) and every unsigned integer [w] (of any of the five
    unsigned types, in the range of [uint64]), [Length] succeeds and returns
    the number of digits of the decimal representation, plus one for the
    minus sign of a negative [v]: the length of the decimal text.  An integer
    of a named type, reached by reflection, gets the same.  Zero has length
    1, and -123 has length 4. *)
Theorem Length_integer (t : IntType) (u : UintType) (v w : Z) :
  Int.fits v -> Int.ufits w ->
  Length (VInt t v) = (digitCount v + (if v <? 0 then 1 else 0), None)
  /\ Length (VInt t v) = (len (decimal v), None)
  /\ Length (VUint u w) = (digitCount w, None)
  /\ Length (VUint u w) = (len (decimal w), None)
  /\ (forall ty : reflect.Type_,
        Length (VOther ty noMethods (RInt v)) = Length (VInt t v)
        /\ Length (VOther ty noMethods (RUint w)) = Length (VUint u w))
  /\ Length (VInt t 0) = (1, None)
  /\ Length (VUint u 0) = (1, None)
  /\ Length (VInt t (-123)) = (4, None).
Proof.
  intros Hv Hw.
  assert (Hv' : Z.abs v <= Int.MaxUint).
  { rewrite fits_iff in Hv. rewrite MaxUint_val. lia. }
  assert (Hw' : Z.abs w <= Int.MaxUint) by (unfold Int.ufits in Hw; lia).
  assert (Hwpos : (w <? 0) = false) by (apply Z.ltb_ge; unfold Int.ufits in Hw; lia).
  cbn [Length noMethods LengthJSON MarshalJSON MarshalText jsonLenV].
  rewrite !len_decimal, Hwpos, Z.add_0_r.
  rewrite (jsonLenInt_digits v Hv'), (jsonLenUint_digits w Hw').
  repeat split; reflexivity.
Qed.

Lemma Length_integer_witness :
  Length (VInt Tint8 (-128)) = (4, None)
  /\ Length (VUint Tuint64 18446744073709551615) = (20, None).
Proof.
  assert (Hv : Int.fits (-128)) by (apply fitsb_fits; reflexivity).
  assert (Hw : Int.ufits 18446744073709551615)
    by (unfold Int.ufits, Int.MaxUint, Int.size; cbn; lia).
  destruct (Length_integer Tint8 Tuint64 (-128) 18446744073709551615 Hv Hw)
    as [H1 [_ [H3 _]]].
  split; [exact H1 | exact H3].
Defined.

(* ===================================================================== *)
(** * Byte slices *)
(* ===================================================================== *)

Lemma jsonLenBytes_formula (b : list byte) :
  lenl b * 4 <= Int.MaxInt -> jsonLenBytes b = 2 + lenl b * 4 / 3.
Proof.
  intros Hb. pose proof (lenl_nonneg b) as H0. rewrite MaxInt_val in Hb.
  unfold jsonLenBytes, Int.add, Int.mul, Int.quo.
  rewrite (wrap_fits (lenl b * 4)) by (apply fits_iff; lia).
  rewrite Z.quot_div_nonneg by lia.
  apply wrap_fits, fits_iff.
  assert (0 <= lenl b * 4 / 3) by (apply Z.div_pos; lia).
  assert (lenl b * 4 / 3 <= 9223372036854775807 / 3) by (apply Z.div_le_mono; lia).
  change (9223372036854775807 / 3) with 3074457345618258602 in *.
  lia.
Qed.

(** C8.  For every byte slice [b] (short enough for [len(b) * 4] not to
    overflow an [int]), [Length] succeeds and returns 2 for the quotes plus
    the integer part of [len(b) * 4 / 3]; a slice of a named type whose
    elements are of kind [Uint8], reached by reflection, gets the same. *)
Theorem Length_bytes (b : list byte) :
  lenl b * 4 <= Int.MaxInt ->
  Length (VBytes b) = (2 + lenl b * 4 / 3, None)
  /\ forall (t : reflect.Type_) (s : list (Value.t value)),
       Bytes s = b ->
       Length (VOther t noMethods (RSlice reflect.Uint8 s))
       = (2 + lenl b * 4 / 3, None).
Proof.
  intros Hb. split.
  - cbn [Length]. rewrite (jsonLenBytes_formula b Hb). reflexivity.
  - intros t s <-. cbn. rewrite (jsonLenBytes_formula _ Hb). reflexivity.
Qed.

Lemma Length_bytes_witness :
  Length (VBytes [x68; x69]) = (4, None).
Proof.
  assert (H : lenl [x68; x69] * 4 <= Int.MaxInt) by (cbv; discriminate).
  exact (proj1 (Length_bytes [x68; x69] H)).
Defined.

(* ===================================================================== *)
(** * Ordered sequences *)
(* ===================================================================== *)

Lemma measures_Length (v : value) :
  measures v -> Length v = (lengthOf v, None).
Proof.
  unfold measures, lengthOf. destruct (Length v) as [c e]. cbn. intros ->. reflexivity.
Qed.

Lemma separators_cons (n : Z) :
  0 <= n -> separators (1 + n) = n.
Proof.
  intros Hn. unfold separators. destruct (Z.ltb_spec 1 (1 + n)); lia.
Qed.

(** The loop of [jsonLenSliceInterface] over elements that all measure: it
    runs to its end and has added up their lengths. *)
Lemma sumZ_cons (a : Z) (l : list Z) : sumZ (a :: l) = a + sumZ l.
Proof. reflexivity. Qed.

Lemma jsonLenSliceInterface_loop_sum (s : list value) : forall n : Z,
  Forall measures s ->
  exists m : Z,
    jsonLenSliceInterface_loop Length s n = (m, None)
    /\ weq m (n + sumZ (map lengthOf s)).
Proof.
  induction s as [|v s IH]; intros n Hs; cbn [jsonLenSliceInterface_loop map].
  - exists n. split; [reflexivity | cbn; weq_lia].
  - inversion Hs as [|? ? Hv Hs']; subst.
    rewrite (measures_Length v Hv), sumZ_cons.
    destruct (IH (Int.add n (lengthOf v)) Hs') as [m [Hm Hw]].
    exists m. split; [exact Hm|]. rewrite Hw. unwrap. weq_lia.
Qed.

Lemma jsonLenSliceInterface_wrap (s : list value) :
  Forall measures s ->
  jsonLenSliceInterface Length s
  = (Int.wrap (2 + sumZ (map lengthOf s) + separators (lenl s)), None).
Proof.
  intros Hs. unfold jsonLenSliceInterface.
  destruct (jsonLenSliceInterface_loop_sum s 0 Hs) as [m [-> Hw]].
  cbn [andThen]. f_equal. unfold separators.
  destruct (1 <? lenl s); unwrap; rewrite Hw; weq_lia.
Qed.

Lemma separatorsFrom_cons (i n : Z) :
  0 <= i -> 0 <= n ->
  separatorsFrom i (1 + n) = (if i =? 0 then 0 else 1) + separatorsFrom (i + 1) n.
Proof.
  intros Hi Hn. unfold separatorsFrom.
  destruct (Z.eqb_spec (i + 1) 0); [lia|].
  destruct (Z.eqb_spec i 0); [rewrite separators_cons|]; lia.
Qed.

Lemma jsonLenArray_loop_sum (s : list (Value.t value)) : forall i n : Z,
  0 <= i ->
  Forall measuresR s ->
  exists m : Z,
    jsonLenArray_loop Length i s n = (m, None)
    /\ weq m (n + sumZ (map (fun e => lengthOf (Value.Interface e)) s)
              + separatorsFrom i (lenl s)).
Proof.
  induction s as [|e s IH]; intros i n Hi Hs; cbn [jsonLenArray_loop map].
  - exists n. split; [reflexivity|].
    unfold separatorsFrom, separators. destruct (i =? 0); cbn; weq_lia.
  - inversion Hs as [|? ? [Hacc He] Hs']; subst.
    rewrite Hacc. cbn [negb]. rewrite (measures_Length _ He).
    destruct (IH (i + 1)
                (Int.add (if negb (i =? 0) then Int.incr n else n)
                         (lengthOf (Value.Interface e)))
                ltac:(lia) Hs') as [m [Hm Hw]].
    exists m. split; [exact Hm|]. rewrite Hw.
    rewrite sumZ_cons, lenl_cons, (separatorsFrom_cons i _ Hi (lenl_nonneg s)).
    destruct (i =? 0); cbn [negb]; unwrap; weq_lia.
Qed.

Lemma jsonLenArray_wrap (s : list (Value.t value)) :
  Forall measuresR s ->
  jsonLenArray Length s
  = (Int.wrap (2 + sumZ (map (fun e => lengthOf (Value.Interface e)) s)
               + separators (lenl s)), None).
Proof.
  intros Hs. unfold jsonLenArray.
  destruct (jsonLenArray_loop_sum s 0 0 ltac:(lia) Hs) as [m [-> Hw]].
  cbn [andThen]. f_equal. unwrap. rewrite Hw.
  unfold separatorsFrom. cbn [Z.eqb]. weq_lia.
Qed.

(** C2.  For every sequence [s] of N values that all measure successfully,
    [Length] returns 2 for the brackets, plus the sum of the computed lengths
    of the elements, plus N-1 separator bytes when N > 1 and none when
    N <= 1 (the total being representable in an [int]).  This holds for the
    [[]interface{}] case of the type switch and, with the same total, for a
    slice or an array reached by reflection whose elements box to the values
    of [s] (a slice of elements of kind [Uint8] apart, which is a byte
    sequence). *)
Theorem Length_sequence (s : list value) :
  Forall measures s ->
  Int.fits (2 + sumZ (map lengthOf s) + separators (lenl s)) ->
  Length (VSliceInterface s)
  = (2 + sumZ (map lengthOf s) + separators (lenl s), None)
  /\ (forall (t : reflect.Type_) (k : reflect.Kind) (r : list (Value.t value)),
        k <> reflect.Uint8 ->
        map Value.Interface r = s ->
        Forall (fun e => Value.CanInterface e = true) r ->
        Length (VOther t noMethods (RSlice k r)) = Length (VSliceInterface s)
        /\ Length (VOther t noMethods (RArray r)) = Length (VSliceInterface s)).
Proof.
  intros Hs Hfits.
  assert (Hfast : Length (VSliceInterface s)
                  = (2 + sumZ (map lengthOf s) + separators (lenl s), None)).
  { cbn [Length]. rewrite (jsonLenSliceInterface_wrap s Hs), wrap_fits by exact Hfits.
    reflexivity. }
  split; [exact Hfast|].
  intros t k r Hk Hr Hacc. rewrite Hfast.
  assert (HR : Forall measuresR r).
  { subst s. rewrite Forall_map in Hs. rewrite Forall_forall in *.
    intros e He. split; auto. }
  assert (Harr : jsonLenArray Length r
                 = (2 + sumZ (map lengthOf s) + separators (lenl s), None)).
  { rewrite (jsonLenArray_wrap r HR). subst s.
    rewrite map_map. unfold lenl. rewrite length_map.
    fold (lenl r). rewrite wrap_fits; [reflexivity|].
    rewrite map_map in Hfits. unfold lenl in Hfits. rewrite length_map in Hfits.
    exact Hfits. }
  split; cbn [Length noMethods LengthJSON MarshalJSON MarshalText jsonLenV].
  - unfold reflect.Kind_eqb. destruct (reflect.Kind_eq_dec k reflect.Uint8); [contradiction|].
    exact Harr.
  - exact Harr.
Qed.

Lemma Length_sequence_witness :
  Length (VSliceInterface [VInt Tint 1; VString "a"; VNil]) = (12, None).
Proof.
  refine (proj1 (Length_sequence [VInt Tint 1; VString "a"; VNil] _ _)).
  - repeat constructor.
  - apply fitsb_fits. reflexivity.
Defined.

(* ===================================================================== *)
(** * Mappings *)
(* ===================================================================== *)

Lemma jsonLenMapStringInterface_loop_sum (m : list (string * value)) : forall n : Z,
  Forall measuresEntry m ->
  exists r : Z,
    jsonLenMapStringInterface_loop Length m n = (r, None)
    /\ weq r (n + sumZ (map entryBytes m)).
Proof.
  induction m as [|[k v] m IH]; intros n Hm; cbn [jsonLenMapStringInterface_loop map].
  - exists n. split; [reflexivity | cbn; weq_lia].
  - inversion Hm as [|? ? Hv Hm']; subst. unfold measuresEntry in Hv. cbn [snd] in Hv.
    rewrite (measures_Length v Hv), sumZ_cons.
    destruct (IH (Int.add n (Int.add (Int.add (jsonLenString k) (lengthOf v)) 1)) Hm')
      as [r [Hr Hw]].
    exists r. split; [exact Hr|]. rewrite Hw. unfold entryBytes. cbn [fst snd].
    unwrap. weq_lia.
Qed.

Lemma jsonLenMapStringInterface_wrap (m : list (string * value)) :
  Forall measuresEntry m ->
  jsonLenMapStringInterface Length m
  = (Int.wrap (2 + sumZ (map entryBytes m) + separators (lenl m)), None).
Proof.
  intros Hm. unfold jsonLenMapStringInterface.
  destruct (jsonLenMapStringInterface_loop_sum m 0 Hm) as [r [-> Hw]].
  cbn [andThen]. f_equal. unfold separators.
  destruct (1 <? lenl m); unwrap; rewrite Hw; weq_lia.
Qed.

Lemma jsonLenMap_loop_sum (m : list (Value.t value * value)) : forall i n : Z,
  0 <= i ->
  Forall measuresEntryR m ->
  exists r : Z,
    jsonLenMap_loop Length i m n = (r, None)
    /\ weq r (n + sumZ (map entryBytesR m) + separatorsFrom i (lenl m)).
Proof.
  induction m as [|[k v] m IH]; intros i n Hi Hm; cbn [jsonLenMap_loop map].
  - exists n. split; [reflexivity|].
    unfold separatorsFrom, separators. destruct (i =? 0); cbn; weq_lia.
  - inversion Hm as [|? ? [[Hacc Hk] Hv] Hm']; subst. cbn [fst snd] in *.
    rewrite Hacc. cbn [negb].
    rewrite (measures_Length _ Hk), (measures_Length _ Hv).
    destruct (IH (i + 1)
                (Int.add (if negb (i =? 0) then Int.incr n else n)
                   (Int.add (Int.add (lengthOf (Value.Interface k)) (lengthOf v)) 1))
                ltac:(lia) Hm') as [r [Hr Hw]].
    exists r. split; [exact Hr|]. rewrite Hw.
    rewrite sumZ_cons, lenl_cons, (separatorsFrom_cons i _ Hi (lenl_nonneg m)).
    unfold entryBytesR at 2. cbn [fst snd].
    destruct (i =? 0); cbn [negb]; unwrap; weq_lia.
Qed.

Lemma jsonLenMap_wrap (m : list (Value.t value * value)) :
  Forall measuresEntryR m ->
  jsonLenMap Length m
  = (Int.wrap (2 + sumZ (map entryBytesR m) + separators (lenl m)), None).
Proof.
  intros Hm. unfold jsonLenMap.
  destruct (jsonLenMap_loop_sum m 0 0 ltac:(lia) Hm) as [r [-> Hw]].
  cbn [andThen]. f_equal. unwrap. rewrite Hw.
  unfold separatorsFrom. cbn [Z.eqb]. weq_lia.
Qed.

(** C10.  For every map reached by reflection whose keys and values all
    measure successfully (the total being representable in an [int]),
    [Length] returns 2 for the braces, plus for each entry the length
    [Length] computes for the key itself, 1 for the colon and the length of
    the value, plus the separators.  The key is measured by the full
    dispatch, not by the quoted-string formula: an integer key adds its
    digits and sign only, so the key 12 adds 2 bytes where the quoted text
    would add 4, and [map[int]int{12: 5}] measures 6. *)
Theorem Length_map_by_reflection (t : reflect.Type_) (m : list (Value.t value * value)) :
  Forall measuresEntryR m ->
  Int.fits (2 + sumZ (map entryBytesR m) + separators (lenl m)) ->
  Length (VOther t noMethods (RMap m))
  = (2 + sumZ (map entryBytesR m) + separators (lenl m), None)
  /\ (forall (ty : IntType) (x : Z) (v : value),
        Int.fits x ->
        entryBytesR (Value.mk true (VInt ty x), v)
        = digitCount x + (if x <? 0 then 1 else 0) + 1 + lengthOf v)
  /\ entryBytesR (Value.mk true (VInt Tint 12), VInt Tint 5) = 2 + 1 + 1
  /\ jsonLenString "12" = 4
  /\ Length (VOther "map[int]int" noMethods
               (RMap [(Value.mk true (VInt Tint 12), VInt Tint 5)])) = (6, None).
Proof.
  intros Hm Hfits. split; [|split; [|split; [|split]]].
  - cbn [Length noMethods LengthJSON MarshalJSON MarshalText jsonLenV].
    rewrite (jsonLenMap_wrap m Hm), wrap_fits by exact Hfits. reflexivity.
  - intros ty x v Hx. unfold entryBytesR, lengthOf. cbn [fst snd Value.Interface Length].
    rewrite jsonLenInt_digits; [reflexivity|].
    rewrite fits_iff in Hx. rewrite MaxUint_val. lia.
  - reflexivity.
  - reflexivity.
  - reflexivity.
Qed.

Lemma Length_map_by_reflection_witness :
  Length (VOther "map[int]string" noMethods
            (RMap [(Value.mk true (VInt Tint 12), VString "a");
                   (Value.mk true (VInt Tint (-7)), VString "")]))
  = (14, None).
Proof.
  refine (proj1 (Length_map_by_reflection "map[int]string"
                   [(Value.mk true (VInt Tint 12), VString "a");
                    (Value.mk true (VInt Tint (-7)), VString "")] _ _)).
  - repeat constructor.
  - apply fitsb_fits. reflexivity.
Defined.

(* ===================================================================== *)
(** * Records *)
(* ===================================================================== *)

Lemma jsonLenString_min (s : string) :
  Int.fits (2 + len s + countEscapes s) -> 2 <= jsonLenString s.
Proof.
  intros H. rewrite jsonLenString_wrap, wrap_fits by exact H.
  pose proof (len_nonneg s). pose proof (countEscapes_bounds s). lia.
Qed.

Lemma fieldBytes_pos (e : StructEntry value) :
  fieldOK e -> emitted e = true -> 3 <= fieldBytes e.
Proof.
  intros H He. destruct (H He) as [_ [Hc Hn]].
  pose proof (jsonLenString_min _ Hn). unfold fieldBytes. lia.
Qed.

Lemma emitted_sum_nonneg (s : list (StructEntry value)) :
  Forall fieldOK s -> 0 <= sumZ (map fieldBytes (filter emitted s)).
Proof.
  induction 1 as [|e s He Hs IH]; cbn [filter map]; [cbn; lia|].
  destruct (emitted e) eqn:E; [|exact IH].
  cbn [map]. rewrite sumZ_cons. pose proof (fieldBytes_pos e He E). lia.
Qed.

(** An omitted field leaves the loop where it was. *)
Lemma jsonLenStruct_loop_omitted (e : StructEntry value) (s : list (StructEntry value)) (n : Z) :
  emitted e = false ->
  jsonLenStruct_loop Length (e :: s) n = jsonLenStruct_loop Length s n.
Proof.
  unfold emitted. intros H. apply negb_false_iff in H.
  cbn [jsonLenStruct_loop]. rewrite H. reflexivity.
Qed.

Lemma jsonLenStruct_loop_app_omitted (s1 s2 : list (StructEntry value)) (e : StructEntry value) :
  emitted e = false ->
  forall n : Z,
    jsonLenStruct_loop Length (s1 ++ e :: s2) n
    = jsonLenStruct_loop Length (s1 ++ s2) n.
Proof.
  intros He. induction s1 as [|x s1 IH]; intros n; cbn [app].
  - apply jsonLenStruct_loop_omitted, He.
  - cbn [jsonLenStruct_loop].
    destruct (Omitempty (f x) && isEmptyValue_fv x); [apply IH|].
    destruct (negb (Value.CanInterface (fv x))); [reflexivity|].
    destruct (Length (Value.Interface (fv x))) as [c [err|]]; [reflexivity|].
    apply IH.
Qed.

Lemma jsonLenStruct_loop_sum (s : list (StructEntry value)) : forall n : Z,
  0 <= n ->
  Forall fieldOK s ->
  Int.fits (n + sumZ (map fieldBytes (filter emitted s))
            + separatorsAfter n (lenl (filter emitted s))) ->
  jsonLenStruct_loop Length s n
  = (n + sumZ (map fieldBytes (filter emitted s))
     + separatorsAfter n (lenl (filter emitted s)), None).
Proof.
  induction s as [|e s IH]; intros n Hn Hs Hfits.
  - cbn. f_equal. unfold separatorsAfter, separators. destruct (n =? 0); cbn; lia.
  - inversion Hs as [|? ? He Hs']; subst.
    destruct (emitted e) eqn:E.
    + cbn [filter] in *. rewrite E in *. cbn [map] in *.
      rewrite sumZ_cons, lenl_cons in *.
      pose proof (emitted_sum_nonneg s Hs') as Hsum.
      pose proof (lenl_nonneg (filter emitted s)) as Hlen.
      pose proof (fieldBytes_pos e He E) as Hpos.
      destruct (He E) as [[Hacc Hm] [Hc Hname]].
      assert (Hsep : separatorsAfter n (1 + lenl (filter emitted s))
                     = (if n =? 0 then 0 else 1) + lenl (filter emitted s)).
      { unfold separatorsAfter. destruct (n =? 0); [apply separators_cons; lia | lia]. }
      rewrite Hsep in *.
      cbn [jsonLenStruct_loop]. unfold emitted in E. apply negb_true_iff in E.
      rewrite E, Hacc. cbn [negb]. rewrite (measures_Length _ Hm).
      set (n' := Int.add (if negb (n =? 0) then Int.incr n else n)
                   (Int.add (Int.add (jsonLenString (Name (f e)))
                               (lengthOf (Value.Interface (fv e)))) 1)).
      assert (Hn' : n' = n + (if n =? 0 then 0 else 1) + fieldBytes e).
      { subst n'. rewrite fits_iff in Hfits.
        rewrite <- (wrap_fits (n + (if n =? 0 then 0 else 1) + fieldBytes e))
          by (apply fits_iff; destruct (n =? 0); lia).
        unfold fieldBytes. destruct (n =? 0); cbn [negb]; unwrap; weq_lia. }
      assert (Hnz : (n' =? 0) = false) by (apply Z.eqb_neq; destruct (n =? 0); lia).
      rewrite IH.
      * unfold separatorsAfter at 1. rewrite Hnz. f_equal. lia.
      * destruct (n =? 0); lia.
      * exact Hs'.
      * unfold separatorsAfter. rewrite Hnz.
        replace (n' + sumZ (map fieldBytes (filter emitted s)) + lenl (filter emitted s))
          with (n + (fieldBytes e + sumZ (map fieldBytes (filter emitted s)))
                + ((if n =? 0 then 0 else 1) + lenl (filter emitted s))) by lia.
        exact Hfits.
    + rewrite (jsonLenStruct_loop_omitted e s n E).
      cbn [filter] in *. rewrite E in *. apply IH; assumption.
Qed.

(** C3.  In a record, a field whose descriptor has the omit-when-empty flag
    and whose value is empty adds nothing: the record measures as it does
    without that field, whatever the other fields are.  When every emitted
    field is accessible and measures successfully to a non-negative length
    (the quoted keys and the total being representable in an [int]), every
    emitted field adds the length of its quoted key, 1 for the colon and the
    length of its value, and the record measures 2 for the braces, plus
    those, plus one separator less than there are emitted fields when more
    than one is emitted. *)
Theorem Length_record (t : reflect.Type_) (s : list (StructEntry value)) :
  Forall fieldOK s ->
  Int.fits (2 + sumZ (map fieldBytes (filter emitted s))
            + separators (lenl (filter emitted s))) ->
  Length (VOther t noMethods (RStruct s))
  = (2 + sumZ (map fieldBytes (filter emitted s))
     + separators (lenl (filter emitted s)), None)
  /\ (forall (s1 s2 : list (StructEntry value)) (e : StructEntry value),
        Omitempty (f e) = true -> isEmptyValue_fv e = true ->
        Length (VOther t noMethods (RStruct (s1 ++ e :: s2)))
        = Length (VOther t noMethods (RStruct (s1 ++ s2)))).
Proof.
  intros Hs Hfits. split.
  - cbn [Length noMethods LengthJSON MarshalJSON MarshalText jsonLenV].
    unfold jsonLenStruct.
    pose proof (emitted_sum_nonneg s Hs) as Hsum.
    pose proof (lenl_nonneg (filter emitted s)) as Hlen.
    assert (Hsep : 0 <= separators (lenl (filter emitted s))).
    { unfold separators. destruct (Z.ltb_spec 1 (lenl (filter emitted s))); lia. }
    rewrite jsonLenStruct_loop_sum; try assumption; try lia.
    + cbn [andThen]. f_equal. unfold separatorsAfter. cbn [Z.eqb].
      unfold Int.add. rewrite wrap_fits; [lia|].
      replace (0 + sumZ (map fieldBytes (filter emitted s))
               + separators (lenl (filter emitted s)) + 2)
        with (2 + sumZ (map fieldBytes (filter emitted s))
              + separators (lenl (filter emitted s))) by lia.
      exact Hfits.
    + unfold separatorsAfter. cbn [Z.eqb]. rewrite fits_iff in *. lia.
  - intros s1 s2 e Ho Hem.
    cbn [Length noMethods LengthJSON MarshalJSON MarshalText jsonLenV].
    unfold jsonLenStruct. rewrite jsonLenStruct_loop_app_omitted; [reflexivity|].
    unfold emitted. rewrite Ho, Hem. reflexivity.
Qed.

Lemma Length_record_witness :
  Length (VOther "struct { Name string; Age int }" noMethods
            (RStruct [mkStructEntry (mkStructField [0%nat] "Name" false) false
                        (Value.mk true (VString "Al"));
                      mkStructEntry (mkStructField [1%nat] "Age" true) true
                        (Value.mk true (VInt Tint 0))]))
  = (13, None).
Proof.
  refine (proj1 (Length_record "struct { Name string; Age int }"
                   [mkStructEntry (mkStructField [0%nat] "Name" false) false
                      (Value.mk true (VString "Al"));
                    mkStructEntry (mkStructField [1%nat] "Age" true) true
                      (Value.mk true (VInt Tint 0))] _ _)).
  - constructor; [|constructor; [|constructor]]; intros E.
    + split; [split; reflexivity|]. split; [cbv; discriminate|].
      apply fitsb_fits. reflexivity.
    + discriminate E.
  - apply fitsb_fits. reflexivity.
Defined.

(** The hypothesis of C3 on the lengths is needed.  [jsonLenStruct] tells
    whether a field was emitted before by [n != 0]: an override that reports
    the negative length -4 for the field [A] brings the total back to 0, and
    the field [B] after it gets no separator: 2 + (3+1-4) + (3+1+1) = 7,
    where the formula of C3 gives 8. *)
Remark jsonLenStruct_negative_override :
  Length (VOther "T" noMethods
            (RStruct [mkStructEntry (mkStructField [0%nat] "A" false) false
                        (Value.mk true (VOther "L" (mkMethods (Some (-4)) None None) RInvalid));
                      mkStructEntry (mkStructField [1%nat] "B" false) false
                        (Value.mk true (VInt Tint 1))]))
  = (7, None).
Proof. reflexivity. Qed.

(* ===================================================================== *)
(** * Errors *)
(* ===================================================================== *)

Lemma andThen_error (r : result) (k : Z -> Z) (err : error) :
  snd r = Some err -> andThen r k = r.
Proof. destruct r as [n [e|]]; cbn; [reflexivity | discriminate]. Qed.

Lemma fails_Length (v : value) (err : error) :
  snd (Length v) = Some err -> Length v = (lengthOf v, Some err).
Proof.
  unfold lengthOf. destruct (Length v) as [c e]. cbn. intros ->. reflexivity.
Qed.

Lemma jsonLenSliceInterface_loop_error (s1 s2 : list value) (v : value) (err : error) :
  Forall measures s1 ->
  snd (Length v) = Some err ->
  forall n : Z,
  exists m : Z,
    jsonLenSliceInterface_loop Length (s1 ++ v :: s2) n = (m, Some err)
    /\ weq m (n + sumZ (map lengthOf s1)).
Proof.
  intros Hs Hv. induction Hs as [|x s1 Hx Hs IH]; intros n;
    cbn [app jsonLenSliceInterface_loop map].
  - rewrite (fails_Length v err Hv). exists n. split; [reflexivity | cbn; weq_lia].
  - rewrite (measures_Length x Hx), sumZ_cons.
    destruct (IH (Int.add n (lengthOf x))) as [m [Hm Hw]].
    exists m. split; [exact Hm|]. rewrite Hw. unwrap. weq_lia.
Qed.

Lemma jsonLenMapStringInterface_loop_error
      (m1 m2 : list (string * value)) (k : string) (v : value) (err : error) :
  Forall measuresEntry m1 ->
  snd (Length v) = Some err ->
  forall n : Z,
    snd (jsonLenMapStringInterface_loop Length (m1 ++ (k, v) :: m2) n) = Some err.
Proof.
  intros Hm Hv. induction Hm as [|[k' x] m1 Hx Hm IH]; intros n;
    cbn [app jsonLenMapStringInterface_loop].
  - rewrite (fails_Length v err Hv). reflexivity.
  - unfold measuresEntry in Hx. cbn [snd] in Hx.
    rewrite (measures_Length x Hx). apply IH.
Qed.

Lemma jsonLenArray_loop_error (s1 s2 : list (Value.t value)) (v : value) (err : error) :
  Forall measuresR s1 ->
  snd (Length v) = Some err ->
  forall i n : Z,
    snd (jsonLenArray_loop Length i (s1 ++ Value.mk true v :: s2) n) = Some err.
Proof.
  intros Hs Hv. induction Hs as [|x s1 [Hacc Hx] Hs IH]; intros i n;
    cbn [app jsonLenArray_loop Value.CanInterface Value.Interface negb].
  - rewrite (fails_Length v err Hv). reflexivity.
  - rewrite Hacc. cbn [negb]. rewrite (measures_Length _ Hx). apply IH.
Qed.

Lemma jsonLenMap_loop_error_key
      (m1 m2 : list (Value.t value * value)) (v mv : value) (err : error) :
  Forall measuresEntryR m1 ->
  snd (Length v) = Some err ->
  forall i n : Z,
    snd (jsonLenMap_loop Length i (m1 ++ (Value.mk true v, mv) :: m2) n) = Some err.
Proof.
  intros Hm Hv. induction Hm as [|[k x] m1 [[Hacc Hk] Hx] Hm IH]; intros i n;
    cbn [app jsonLenMap_loop Value.CanInterface Value.Interface negb fst snd] in *.
  - rewrite (fails_Length v err Hv). reflexivity.
  - rewrite Hacc. cbn [negb].
    rewrite (measures_Length _ Hk), (measures_Length _ Hx). apply IH.
Qed.

Lemma jsonLenMap_loop_error_value
      (m1 m2 : list (Value.t value * value)) (k : Value.t value) (v : value) (err : error) :
  Forall measuresEntryR m1 ->
  measuresR k ->
  snd (Length v) = Some err ->
  forall i n : Z,
    snd (jsonLenMap_loop Length i (m1 ++ (k, v) :: m2) n) = Some err.
Proof.
  intros Hm [Hkacc Hkm] Hv. induction Hm as [|[k' x] m1 [[Hacc Hk] Hx] Hm IH]; intros i n;
    cbn [app jsonLenMap_loop fst snd] in *.
  - rewrite Hkacc. cbn [negb].
    rewrite (measures_Length _ Hkm), (fails_Length v err Hv). reflexivity.
  - rewrite Hacc. cbn [negb].
    rewrite (measures_Length _ Hk), (measures_Length _ Hx). apply IH.
Qed.

Lemma jsonLenStruct_loop_error
      (s1 s2 : list (StructEntry value)) (fd : StructField) (em : bool)
      (v : value) (err : error) :
  Forall fieldMeasures s1 ->
  Omitempty fd && em = false ->
  snd (Length v) = Some err ->
  forall n : Z,
    snd (jsonLenStruct_loop Length (s1 ++ mkStructEntry fd em (Value.mk true v) :: s2) n)
    = Some err.
Proof.
  intros Hs Hem Hv. induction Hs as [|x s1 Hx Hs IH]; intros n;
    cbn [app jsonLenStruct_loop f isEmptyValue_fv fv Value.CanInterface
         Value.Interface negb].
  - rewrite Hem. rewrite (fails_Length v err Hv). reflexivity.
  - unfold fieldMeasures, emitted in Hx.
    destruct (Omitempty (f x) && isEmptyValue_fv x); [apply IH|].
    destruct (Hx eq_refl) as [Hacc Hm].
    rewrite Hacc. cbn [negb]. rewrite (measures_Length _ Hm). apply IH.
Qed.

(** Once an element has failed, the elements after it play no part. *)
Lemma jsonLenSliceInterface_loop_abort (s1 s2 : list value) (v : value) (err : error) :
  snd (Length v) = Some err ->
  forall n : Z,
    jsonLenSliceInterface_loop Length (s1 ++ v :: s2) n
    = jsonLenSliceInterface_loop Length (s1 ++ [v]) n.
Proof.
  intros Hv. induction s1 as [|x s1 IH]; intros n; cbn [app jsonLenSliceInterface_loop].
  - rewrite (fails_Length v err Hv). reflexivity.
  - destruct (Length x) as [c [e|]]; [reflexivity | apply IH].
Qed.

(** C4, as stated, does not hold: a length comes back with the error.  The
    sequence [[]interface{}{1, func(){}}] fails with the error of its second
    element, and the length returned alongside is 1, what the loop had added
    up before it. *)
Lemma partial_length_with_error :
  snd (Length (VSliceInterface
                 [VInt Tint 1; VOther "func()" noMethods (ROther reflect.Func)]))
  = Some (UnsupportedTypeError "func()")
  /\ fst (Length (VSliceInterface
                    [VInt Tint 1; VOther "func()" noMethods (ROther reflect.Func)]))
     <> 0.
Proof. split; [reflexivity | vm_compute; discriminate]. Qed.

(** C4, amended.  When a sequence, a mapping or a record holds a nested
    value whose measurement fails, and whatever is traversed before it
    measures successfully, [Length] fails with the error of that nested
    value, unchanged, whatever comes after it.  The length returned alongside
    is not zero in general: for the [[]interface{}] sequence it is the sum of
    the lengths of the elements before the failing one.  A sequence holding
    an element of an unsupported type at any position, the elements before
    it measuring successfully, fails with that element's
    [UnsupportedTypeError]. *)
Theorem Length_error_propagates (v : value) (err : error) :
  snd (Length v) = Some err ->
  (forall s1 s2 : list value,
      Forall measures s1 ->
      snd (Length (VSliceInterface (s1 ++ v :: s2))) = Some err
      /\ Length (VSliceInterface (s1 ++ v :: s2)) = Length (VSliceInterface (s1 ++ [v]))
      /\ weq (fst (Length (VSliceInterface (s1 ++ v :: s2)))) (sumZ (map lengthOf s1)))
  /\ (forall (m1 m2 : list (string * value)) (k : string),
        Forall measuresEntry m1 ->
        snd (Length (VMapStringInterface (m1 ++ (k, v) :: m2))) = Some err)
  /\ (forall (t : reflect.Type_) (s1 s2 : list (Value.t value)),
        Forall measuresR s1 ->
        snd (Length (VOther t noMethods (RArray (s1 ++ Value.mk true v :: s2)))) = Some err)
  /\ (forall (t : reflect.Type_) (k : reflect.Kind) (s1 s2 : list (Value.t value)),
        k <> reflect.Uint8 ->
        Forall measuresR s1 ->
        snd (Length (VOther t noMethods (RSlice k (s1 ++ Value.mk true v :: s2)))) = Some err)
  /\ (forall (t : reflect.Type_) (m1 m2 : list (Value.t value * value)) (mv : value),
        Forall measuresEntryR m1 ->
        snd (Length (VOther t noMethods (RMap (m1 ++ (Value.mk true v, mv) :: m2)))) = Some err)
  /\ (forall (t : reflect.Type_) (m1 m2 : list (Value.t value * value)) (k : Value.t value),
        Forall measuresEntryR m1 ->
        measuresR k ->
        snd (Length (VOther t noMethods (RMap (m1 ++ (k, v) :: m2)))) = Some err)
  /\ (forall (t : reflect.Type_) (s1 s2 : list (StructEntry value)) (fd : StructField) (em : bool),
        Forall fieldMeasures s1 ->
        Omitempty fd && em = false ->
        snd (Length (VOther t noMethods
                       (RStruct (s1 ++ mkStructEntry fd em (Value.mk true v) :: s2))))
        = Some err)
  /\ (forall t : reflect.Type_,
        Length (VOther t noMethods (RPtr (Some (Value.mk true v)))) = Length v)
  /\ (forall (t : reflect.Type_) (k : reflect.Kind) (s1 s2 : list value),
        Forall measures s1 ->
        snd (Length (VSliceInterface (s1 ++ VOther t noMethods (ROther k) :: s2)))
        = Some (UnsupportedTypeError t)).
Proof.
  intros Hv.
  assert (Hseq : forall (x : value) (e : error) (s1 s2 : list value),
             snd (Length x) = Some e ->
             Forall measures s1 ->
             exists m, Length (VSliceInterface (s1 ++ x :: s2)) = (m, Some e)
                       /\ weq m (sumZ (map lengthOf s1))).
  { intros x e s1 s2 Hx Hs. cbn [Length]. unfold jsonLenSliceInterface.
    destruct (jsonLenSliceInterface_loop_error s1 s2 x e Hs Hx 0) as [m [Hm Hw]].
    exists m. rewrite Hm. cbn [andThen]. split; [reflexivity|].
    rewrite Hw. weq_lia. }
  repeat match goal with |- _ /\ _ => split end.
  - intros s1 s2 Hs.
    destruct (Hseq v err s1 s2 Hv Hs) as [m [Hm Hw]].
    split; [rewrite Hm; reflexivity|]. split; [|rewrite Hm; exact Hw].
    cbn [Length]. unfold jsonLenSliceInterface.
    rewrite (jsonLenSliceInterface_loop_abort s1 s2 v err Hv 0).
    destruct (jsonLenSliceInterface_loop_error s1 [] v err Hs Hv 0) as [a [Ha _]].
    rewrite Ha. reflexivity.
  - intros m1 m2 k Hm. cbn [Length]. unfold jsonLenMapStringInterface.
    pose proof (jsonLenMapStringInterface_loop_error m1 m2 k v err Hm Hv 0) as H.
    rewrite (andThen_error _ _ err H). exact H.
  - intros t s1 s2 Hs.
    cbn [Length noMethods LengthJSON MarshalJSON MarshalText jsonLenV].
    unfold jsonLenArray.
    pose proof (jsonLenArray_loop_error s1 s2 v err Hs Hv 0 0) as H.
    rewrite (andThen_error _ _ err H). exact H.
  - intros t k s1 s2 Hk Hs.
    cbn [Length noMethods LengthJSON MarshalJSON MarshalText jsonLenV].
    unfold reflect.Kind_eqb. destruct (reflect.Kind_eq_dec k reflect.Uint8); [contradiction|].
    unfold jsonLenArray.
    pose proof (jsonLenArray_loop_error s1 s2 v err Hs Hv 0 0) as H.
    rewrite (andThen_error _ _ err H). exact H.
  - intros t m1 m2 mv Hm.
    cbn [Length noMethods LengthJSON MarshalJSON MarshalText jsonLenV].
    unfold jsonLenMap.
    pose proof (jsonLenMap_loop_error_key m1 m2 v mv err Hm Hv 0 0) as H.
    rewrite (andThen_error _ _ err H). exact H.
  - intros t m1 m2 k Hm Hk.
    cbn [Length noMethods LengthJSON MarshalJSON MarshalText jsonLenV].
    unfold jsonLenMap.
    pose proof (jsonLenMap_loop_error_value m1 m2 k v err Hm Hk Hv 0 0) as H.
    rewrite (andThen_error _ _ err H). exact H.
  - intros t s1 s2 fd em Hs Hem.
    cbn [Length noMethods LengthJSON MarshalJSON MarshalText jsonLenV].
    unfold jsonLenStruct.
    pose proof (jsonLenStruct_loop_error s1 s2 fd em v err Hs Hem Hv 0) as H.
    rewrite (andThen_error _ _ err H). exact H.
  - intros t. reflexivity.
  - intros t k s1 s2 Hs.
    destruct (Hseq (VOther t noMethods (ROther k)) (UnsupportedTypeError t) s1 s2
                eq_refl Hs) as [m [Hm _]].
    rewrite Hm. reflexivity.
Qed.

Lemma Length_error_propagates_witness :
  snd (Length (VSliceInterface
                 [VString "a"; VOther "chan int" noMethods (ROther reflect.Chan); VNil]))
  = Some (UnsupportedTypeError "chan int").
Proof.
  refine (proj1 (proj1 (Length_error_propagates
                          (VOther "chan int" noMethods (ROther reflect.Chan))
                          (UnsupportedTypeError "chan int") _)
                   [VString "a"] [VNil] _)).
  - reflexivity.
  - repeat constructor.
Defined.

(* ===================================================================== *)
(** * The dispatcher *)
(* ===================================================================== *)

(** C5.  [Length] measures every value by the first category, in the
    resolution order, that the value is in, and every value is in one.  In
    particular a value whose type has both [LengthJSON] and [MarshalJSON] is
    measured by [LengthJSON], and what that returns is the result as it is,
    whatever [MarshalJSON], [MarshalText] or reflection would have given. *)
Theorem Length_first_match (v : value) :
  (exists c : category, firstMatch categories v = Some (c, Length v))
  /\ (forall (t : reflect.Type_) (n : Z) (j : list byte * option error)
             (x : option (list byte * option error)) (r : rvalue),
        Length (VOther t (mkMethods (Some n) (Some j) x) r) = (n, None)
        /\ rule COverride (VOther t (mkMethods (Some n) (Some j) x) r) = Some (n, None)
        /\ rule COwnJSON (VOther t (mkMethods (Some n) (Some j) x) r) <> None
        /\ rule CIntrospection (VOther t (mkMethods (Some n) (Some j) x) r) <> None).
Proof.
  split.
  - destruct v as [ | | | | | | | | | | t ms r];
      try (eexists; cbn [firstMatch categories rule Length]; reflexivity).
    destruct ms as [[n|] [[b [e|]]|] [[b' [e'|]]|]];
      eexists; cbn [firstMatch categories rule Length LengthJSON MarshalJSON MarshalText
                    TypeOf ValueOf]; reflexivity.
  - intros t n [b [e|]] x r; cbn; repeat split; discriminate.
Qed.

(** The order matters: two categories can hold for one value and disagree. *)
Remark categories_overlap :
  let v := VOther "T" (mkMethods (Some 3) (Some ([x31; x32; x33; x34; x35], None)) None)
             (RString "abc") in
  Length v = (3, None)
  /\ rule COwnJSON v = Some (5, None)
  /\ rule CIntrospection v = Some (5, None)
  /\ Length (VNumber "12") = (2, None)
  /\ rule CIntrospection (VNumber "12") = Some (4, None).
Proof. cbv zeta. repeat split; reflexivity. Qed.

(* ===================================================================== *)
(** * Determinism and the traversal order of maps *)
(* ===================================================================== *)

Lemma snd_andThen (r : result) (k : Z -> Z) : snd (andThen r k) = snd r.
Proof. destruct r as [n [e|]]; reflexivity. Qed.

(** A loop that ran to its end measured every element. *)
Lemma jsonLenSliceInterface_loop_measures (s : list value) : forall n : Z,
  snd (jsonLenSliceInterface_loop Length s n) = None -> Forall measures s.
Proof.
  induction s as [|v s IH]; intros n H; [constructor|].
  cbn [jsonLenSliceInterface_loop] in H.
  destruct (Length v) as [c [e|]] eqn:E; [discriminate H|].
  constructor; [unfold measures; rewrite E; reflexivity | eapply IH, H].
Qed.

Lemma jsonLenMapStringInterface_loop_measures (m : list (string * value)) : forall n : Z,
  snd (jsonLenMapStringInterface_loop Length m n) = None -> Forall measuresEntry m.
Proof.
  induction m as [|[k v] m IH]; intros n H; [constructor|].
  cbn [jsonLenMapStringInterface_loop] in H.
  destruct (Length v) as [c [e|]] eqn:E; [discriminate H|].
  constructor; [unfold measuresEntry, measures; cbn [snd]; rewrite E; reflexivity
               | eapply IH, H].
Qed.

Lemma jsonLenArray_loop_measures (s : list (Value.t value)) : forall i n : Z,
  snd (jsonLenArray_loop Length i s n) = None -> Forall measuresR s.
Proof.
  induction s as [|e s IH]; intros i n H; [constructor|].
  cbn [jsonLenArray_loop] in H.
  destruct (Value.CanInterface e) eqn:Hacc; [|discriminate H]. cbn [negb] in H.
  destruct (Length (Value.Interface e)) as [c [err|]] eqn:E; [discriminate H|].
  constructor; [|eapply IH, H].
  split; [exact Hacc | unfold measures; rewrite E; reflexivity].
Qed.

Lemma jsonLenMap_loop_measures (m : list (Value.t value * value)) : forall i n : Z,
  snd (jsonLenMap_loop Length i m n) = None -> Forall measuresEntryR m.
Proof.
  induction m as [|[k v] m IH]; intros i n H; [constructor|].
  cbn [jsonLenMap_loop] in H.
  destruct (Value.CanInterface k) eqn:Hacc; [|discriminate H]. cbn [negb] in H.
  destruct (Length (Value.Interface k)) as [c1 [err|]] eqn:E1; [discriminate H|].
  destruct (Length v) as [c2 [err|]] eqn:E2; [discriminate H|].
  constructor; [|eapply IH, H].
  unfold measuresEntryR, measuresR, measures. cbn [fst snd].
  rewrite E1, E2. auto.
Qed.

Lemma jsonLenStruct_loop_measures (s : list (StructEntry value)) : forall n : Z,
  snd (jsonLenStruct_loop Length s n) = None -> Forall fieldMeasures s.
Proof.
  induction s as [|e s IH]; intros n H; [constructor|].
  cbn [jsonLenStruct_loop] in H.
  destruct (Omitempty (f e) && isEmptyValue_fv e) eqn:Hem.
  - constructor; [|eapply IH, H].
    unfold fieldMeasures, emitted. rewrite Hem. discriminate.
  - destruct (Value.CanInterface (fv e)) eqn:Hacc; [|discriminate H]. cbn [negb] in H.
    destruct (Length (Value.Interface (fv e))) as [c [err|]] eqn:E; [discriminate H|].
    constructor; [|eapply IH, H].
    intros _. split; [exact Hacc | unfold measures; rewrite E; reflexivity].
Qed.

(** The loops see an element through [Length] only. *)
Lemma jsonLenSliceInterface_loop_cong (s1 s2 : list value) (x x' : value) :
  Length x' = Length x ->
  forall n : Z,
    jsonLenSliceInterface_loop Length (s1 ++ x' :: s2) n
    = jsonLenSliceInterface_loop Length (s1 ++ x :: s2) n.
Proof.
  intros Hx. induction s1 as [|y s1 IH]; intros n; cbn [app jsonLenSliceInterface_loop].
  - rewrite Hx. reflexivity.
  - destruct (Length y) as [c [e|]]; [reflexivity | apply IH].
Qed.

Lemma jsonLenMapStringInterface_loop_cong
      (m1 m2 : list (string * value)) (k : string) (x x' : value) :
  Length x' = Length x ->
  forall n : Z,
    jsonLenMapStringInterface_loop Length (m1 ++ (k, x') :: m2) n
    = jsonLenMapStringInterface_loop Length (m1 ++ (k, x) :: m2) n.
Proof.
  intros Hx. induction m1 as [|[k' y] m1 IH]; intros n;
    cbn [app jsonLenMapStringInterface_loop].
  - rewrite Hx. reflexivity.
  - destruct (Length y) as [c [e|]]; [reflexivity | apply IH].
Qed.

Lemma jsonLenArray_loop_cong (s1 s2 : list (Value.t value)) (acc : bool) (x x' : value) :
  Length x' = Length x ->
  forall i n : Z,
    jsonLenArray_loop Length i (s1 ++ Value.mk acc x' :: s2) n
    = jsonLenArray_loop Length i (s1 ++ Value.mk acc x :: s2) n.
Proof.
  intros Hx. induction s1 as [|y s1 IH]; intros i n;
    cbn [app jsonLenArray_loop Value.CanInterface Value.Interface].
  - rewrite Hx. reflexivity.
  - destruct (negb (Value.CanInterface y)); [reflexivity|].
    destruct (Length (Value.Interface y)) as [c [e|]]; [reflexivity | apply IH].
Qed.

Lemma jsonLenMap_loop_cong_key
      (m1 m2 : list (Value.t value * value)) (acc : bool) (x x' mv : value) :
  Length x' = Length x ->
  forall i n : Z,
    jsonLenMap_loop Length i (m1 ++ (Value.mk acc x', mv) :: m2) n
    = jsonLenMap_loop Length i (m1 ++ (Value.mk acc x, mv) :: m2) n.
Proof.
  intros Hx. induction m1 as [|[k y] m1 IH]; intros i n;
    cbn [app jsonLenMap_loop Value.CanInterface Value.Interface].
  - rewrite Hx. reflexivity.
  - destruct (negb (Value.CanInterface k)); [reflexivity|].
    destruct (Length (Value.Interface k)) as [c1 [e|]]; [reflexivity|].
    destruct (Length y) as [c2 [e|]]; [reflexivity | apply IH].
Qed.

Lemma jsonLenMap_loop_cong_value
      (m1 m2 : list (Value.t value * value)) (k : Value.t value) (x x' : value) :
  Length x' = Length x ->
  forall i n : Z,
    jsonLenMap_loop Length i (m1 ++ (k, x') :: m2) n
    = jsonLenMap_loop Length i (m1 ++ (k, x) :: m2) n.
Proof.
  intros Hx. induction m1 as [|[k' y] m1 IH]; intros i n; cbn [app jsonLenMap_loop].
  - rewrite Hx. reflexivity.
  - destruct (negb (Value.CanInterface k')); [reflexivity|].
    destruct (Length (Value.Interface k')) as [c1 [e|]]; [reflexivity|].
    destruct (Length y) as [c2 [e|]]; [reflexivity | apply IH].
Qed.

Lemma jsonLenStruct_loop_cong
      (s1 s2 : list (StructEntry value)) (fd : StructField) (em acc : bool)
      (x x' : value) :
  Length x' = Length x ->
  forall n : Z,
    jsonLenStruct_loop Length (s1 ++ mkStructEntry fd em (Value.mk acc x') :: s2) n
    = jsonLenStruct_loop Length (s1 ++ mkStructEntry fd em (Value.mk acc x) :: s2) n.
Proof.
  intros Hx. induction s1 as [|y s1 IH]; intros n;
    cbn [app jsonLenStruct_loop f isEmptyValue_fv fv Value.CanInterface Value.Interface].
  - rewrite Hx. reflexivity.
  - destruct (Omitempty (f y) && isEmptyValue_fv y); [apply IH|].
    destruct (negb (Value.CanInterface (fv y))); [reflexivity|].
    destruct (Length (Value.Interface (fv y))) as [c [e|]]; [reflexivity | apply IH].
Qed.

Lemma lenl_app_cons {A : Type} (l1 l2 : list A) (a b : A) :
  lenl (l1 ++ a :: l2) = lenl (l1 ++ b :: l2).
Proof. unfold lenl. rewrite !length_app. reflexivity. Qed.

Lemma sumZ_Permutation (l l' : list Z) : Permutation l l' -> sumZ l = sumZ l'.
Proof.
  induction 1 as [|x l l' Hp IH|x y l|l l' l'' H1 IH1 H2 IH2];
    rewrite ?sumZ_cons; [reflexivity | lia | lia | congruence].
Qed.

(** A mapping whose entries all measure has the same length under every
    traversal order. *)
Lemma jsonLenMapStringInterface_Permutation (m m' : list (string * value)) :
  Permutation m m' ->
  snd (jsonLenMapStringInterface Length m) = None ->
  jsonLenMapStringInterface Length m' = jsonLenMapStringInterface Length m.
Proof.
  intros Hp Hm. unfold jsonLenMapStringInterface in Hm. rewrite snd_andThen in Hm.
  apply jsonLenMapStringInterface_loop_measures in Hm.
  rewrite (jsonLenMapStringInterface_wrap m Hm).
  rewrite (jsonLenMapStringInterface_wrap m' (Permutation_Forall Hp Hm)).
  unfold lenl. rewrite <- (Permutation_length Hp).
  rewrite (sumZ_Permutation _ _ (Permutation_map entryBytes Hp)). reflexivity.
Qed.

Lemma jsonLenMap_Permutation (m m' : list (Value.t value * value)) :
  Permutation m m' ->
  snd (jsonLenMap Length m) = None ->
  jsonLenMap Length m' = jsonLenMap Length m.
Proof.
  intros Hp Hm. unfold jsonLenMap in Hm. rewrite snd_andThen in Hm.
  apply jsonLenMap_loop_measures in Hm.
  rewrite (jsonLenMap_wrap m Hm).
  rewrite (jsonLenMap_wrap m' (Permutation_Forall Hp Hm)).
  unfold lenl. rewrite <- (Permutation_length Hp).
  rewrite (sumZ_Permutation _ _ (Permutation_map entryBytesR Hp)). reflexivity.
Qed.

Lemma agree_eq (v v' : value) : Length v' = Length v -> agree v v'.
Proof. intros H. split; intros _; congruence. Qed.

(** A context that sees its hole through [Length] only, and cannot measure
    unless the hole does, carries agreement over. *)
Lemma agree_context (C : value -> value) :
  (forall x x' : value, Length x' = Length x -> Length (C x') = Length (C x)) ->
  (forall x : value, measures (C x) -> measures x) ->
  forall x x' : value, agree x x' -> agree (C x) (C x').
Proof.
  intros Hcong Hinv x x' [H1 H2]. split; intros Hm.
  - apply Hcong, H1, (Hinv _ Hm).
  - apply Hcong, H2, (Hinv _ Hm).
Qed.

(** Either the methods of a type settle its length, or reflection does. *)
Lemma VOther_cases (t : reflect.Type_) (ms : MethodSet) :
  (forall r r' : rvalue, Length (VOther t ms r') = Length (VOther t ms r))
  \/ (forall r : rvalue, Length (VOther t ms r) = jsonLenV Length t r).
Proof.
  destruct ms as [[n|] [[b [e|]]|] [[b' [e'|]]|]]; cbn; auto.
Qed.

Lemma Forall_elt_inv {A : Type} (P : A -> Prop) (l1 l2 : list A) (a : A) :
  Forall P (l1 ++ a :: l2) -> P a.
Proof.
  intros H. apply Forall_app in H. destruct H as [_ H]. inversion H; assumption.
Qed.

Lemma Bytes_length (s : list (Value.t value)) : lenl (Bytes s) = lenl s.
Proof. unfold Bytes, lenl. rewrite length_map. reflexivity. Qed.

Lemma jsonLenBytes_length (b b' : list byte) :
  lenl b = lenl b' -> jsonLenBytes b = jsonLenBytes b'.
Proof. unfold jsonLenBytes. intros ->. reflexivity. Qed.

Lemma agree_trans (u v w : value) : agree u v -> agree v w -> agree u w.
Proof.
  unfold agree, measures. intros [H1 H2] [H3 H4]. split; intros Hm.
  - rewrite <- (H1 Hm). apply H3. rewrite (H1 Hm). exact Hm.
  - rewrite <- (H4 Hm). apply H2. rewrite (H4 Hm). exact Hm.
Qed.

Lemma agree_rptr (t : reflect.Type_) (ms : MethodSet) (acc : bool) (x x' : value)
      (mk_ : option (Value.t value) -> rvalue) :
  mk_ = RPtr \/ mk_ = RInterface ->
  agree x x' ->
  agree (VOther t ms (mk_ (Some (Value.mk acc x))))
        (VOther t ms (mk_ (Some (Value.mk acc x')))).
Proof.
  intros Hmk Hx. destruct (VOther_cases t ms) as [Hindep | Hrefl];
    [apply agree_eq, Hindep|].
  unfold agree, measures. rewrite !Hrefl.
  destruct Hmk as [-> | ->];
    cbn [jsonLenV Value.CanInterface Value.Interface];
    (destruct acc; cbn [negb]; [exact Hx | split; reflexivity]).
Qed.

(** Two traversals of one value agree. *)
Lemma sameValue_agree (v v' : value) : sameValue v v' -> agree v v'.
Proof.
  induction 1 as
    [ v
    | v v' _ IH
    | u v w _ IH1 _ IH2
    | m m' Hp
    | t ms m m' Hp
    | s1 s2 x x' _ IH
    | m1 m2 k x x' _ IH
    | t ms k s1 s2 acc x x' _ IH
    | t ms s1 s2 acc x x' _ IH
    | t ms m1 m2 acc x x' mv _ IH
    | t ms m1 m2 k x x' _ IH
    | t ms acc x x' _ IH
    | t ms acc x x' _ IH
    | t ms s1 s2 fd em acc x x' _ IH ].
  - apply agree_eq. reflexivity.
  - destruct IH. split; assumption.
  - eapply agree_trans; eassumption.
  - split; intros Hm; unfold measures in Hm; cbn [Length] in *.
    + apply jsonLenMapStringInterface_Permutation; assumption.
    + apply jsonLenMapStringInterface_Permutation; [apply Permutation_sym|]; assumption.
  - destruct (VOther_cases t ms) as [Hindep | Hrefl]; [apply agree_eq, Hindep|].
    split; intros Hm; unfold measures in Hm; rewrite !Hrefl in *; cbn [jsonLenV] in *.
    + apply jsonLenMap_Permutation; assumption.
    + apply jsonLenMap_Permutation; [apply Permutation_sym|]; assumption.
  - apply (agree_context (fun y => VSliceInterface (s1 ++ y :: s2))); [| |exact IH].
    + intros y y' Hy. cbn [Length]. unfold jsonLenSliceInterface.
      rewrite (jsonLenSliceInterface_loop_cong s1 s2 y y' Hy),
              (lenl_app_cons s1 s2 y' y). reflexivity.
    + intros y Hm. unfold measures in Hm. cbn [Length] in Hm.
      unfold jsonLenSliceInterface in Hm. rewrite snd_andThen in Hm.
      apply jsonLenSliceInterface_loop_measures in Hm.
      exact (Forall_elt_inv _ _ _ _ Hm).
  - apply (agree_context (fun y => VMapStringInterface (m1 ++ (k, y) :: m2)));
      [| |exact IH].
    + intros y y' Hy. cbn [Length]. unfold jsonLenMapStringInterface.
      rewrite (jsonLenMapStringInterface_loop_cong m1 m2 k y y' Hy),
              (lenl_app_cons m1 m2 (k, y') (k, y)). reflexivity.
    + intros y Hm. unfold measures in Hm. cbn [Length] in Hm.
      unfold jsonLenMapStringInterface in Hm. rewrite snd_andThen in Hm.
      apply jsonLenMapStringInterface_loop_measures in Hm.
      exact (Forall_elt_inv _ _ _ _ Hm).
  - destruct (VOther_cases t ms) as [Hindep | Hrefl]; [apply agree_eq, Hindep|].
    destruct (reflect.Kind_eqb k reflect.Uint8) eqn:Hk.
    + apply agree_eq. rewrite !Hrefl. cbn [jsonLenV]. rewrite Hk.
      f_equal. apply jsonLenBytes_length. rewrite !Bytes_length. apply lenl_app_cons.
    + apply (agree_context
               (fun y => VOther t ms (RSlice k (s1 ++ Value.mk acc y :: s2))));
        [| |exact IH].
      * intros y y' Hy. rewrite !Hrefl. cbn [jsonLenV]. rewrite Hk.
        unfold jsonLenArray.
        rewrite (jsonLenArray_loop_cong s1 s2 acc y y' Hy). reflexivity.
      * intros y Hm. unfold measures in Hm. rewrite Hrefl in Hm.
        cbn [jsonLenV] in Hm. rewrite Hk in Hm.
        unfold jsonLenArray in Hm. rewrite snd_andThen in Hm.
        apply jsonLenArray_loop_measures in Hm.
        exact (proj2 (Forall_elt_inv _ _ _ _ Hm)).
  - destruct (VOther_cases t ms) as [Hindep | Hrefl]; [apply agree_eq, Hindep|].
    apply (agree_context
             (fun y => VOther t ms (RArray (s1 ++ Value.mk acc y :: s2))));
      [| |exact IH].
    + intros y y' Hy. rewrite !Hrefl. cbn [jsonLenV]. unfold jsonLenArray.
      rewrite (jsonLenArray_loop_cong s1 s2 acc y y' Hy). reflexivity.
    + intros y Hm. unfold measures in Hm. rewrite Hrefl in Hm.
      cbn [jsonLenV] in Hm. unfold jsonLenArray in Hm. rewrite snd_andThen in Hm.
      apply jsonLenArray_loop_measures in Hm.
      exact (proj2 (Forall_elt_inv _ _ _ _ Hm)).
  - destruct (VOther_cases t ms) as [Hindep | Hrefl]; [apply agree_eq, Hindep|].
    apply (agree_context
             (fun y => VOther t ms (RMap (m1 ++ (Value.mk acc y, mv) :: m2))));
      [| |exact IH].
    + intros y y' Hy. rewrite !Hrefl. cbn [jsonLenV]. unfold jsonLenMap.
      rewrite (jsonLenMap_loop_cong_key m1 m2 acc y y' mv Hy). reflexivity.
    + intros y Hm. unfold measures in Hm. rewrite Hrefl in Hm.
      cbn [jsonLenV] in Hm. unfold jsonLenMap in Hm. rewrite snd_andThen in Hm.
      apply jsonLenMap_loop_measures in Hm.
      exact (proj2 (proj1 (Forall_elt_inv _ _ _ _ Hm))).
  - destruct (VOther_cases t ms) as [Hindep | Hrefl]; [apply agree_eq, Hindep|].
    apply (agree_context (fun y => VOther t ms (RMap (m1 ++ (k, y) :: m2))));
      [| |exact IH].
    + intros y y' Hy. rewrite !Hrefl. cbn [jsonLenV]. unfold jsonLenMap.
      rewrite (jsonLenMap_loop_cong_value m1 m2 k y y' Hy). reflexivity.
    + intros y Hm. unfold measures in Hm. rewrite Hrefl in Hm.
      cbn [jsonLenV] in Hm. unfold jsonLenMap in Hm. rewrite snd_andThen in Hm.
      apply jsonLenMap_loop_measures in Hm.
      exact (proj2 (Forall_elt_inv _ _ _ _ Hm)).
  - apply agree_rptr; [left; reflexivity | exact IH].
  - apply agree_rptr; [right; reflexivity | exact IH].
  - destruct (VOther_cases t ms) as [Hindep | Hrefl]; [apply agree_eq, Hindep|].
    destruct (Omitempty fd && em) eqn:Hem.
    + apply agree_eq. rewrite !Hrefl. cbn [jsonLenV]. unfold jsonLenStruct.
      rewrite !jsonLenStruct_loop_app_omitted
        by (unfold emitted; cbn [f isEmptyValue_fv]; rewrite Hem; reflexivity).
      reflexivity.
    + apply (agree_context
               (fun y => VOther t ms
                           (RStruct (s1 ++ mkStructEntry fd em (Value.mk acc y) :: s2))));
        [| |exact IH].
      * intros y y' Hy. rewrite !Hrefl. cbn [jsonLenV]. unfold jsonLenStruct.
        rewrite (jsonLenStruct_loop_cong s1 s2 fd em acc y y' Hy). reflexivity.
      * intros y Hm. unfold measures in Hm. rewrite Hrefl in Hm.
        cbn [jsonLenV] in Hm. unfold jsonLenStruct in Hm. rewrite snd_andThen in Hm.
        apply jsonLenStruct_loop_measures in Hm.
        apply Forall_elt_inv in Hm. unfold fieldMeasures, emitted in Hm.
        cbn [f isEmptyValue_fv fv] in Hm. rewrite Hem in Hm.
        exact (proj2 (Hm eq_refl)).
Qed.

(** C9, as stated, does not hold: when a measurement fails, what comes back
    depends on the order in which a map was traversed.  The map
    [{"a": 1, "b": func(){}}] returns the length 5 with its error when [a]
    comes first and the length 0 when [b] does; and of two failing entries,
    the one reached first gives the error. *)
Lemma Length_depends_on_traversal_order :
  sameValue
    (VMapStringInterface [("a", VInt Tint 1);
                          ("b", VOther "func()" noMethods (ROther reflect.Func))])
    (VMapStringInterface [("b", VOther "func()" noMethods (ROther reflect.Func));
                          ("a", VInt Tint 1)])
  /\ Length (VMapStringInterface
               [("a", VInt Tint 1);
                ("b", VOther "func()" noMethods (ROther reflect.Func))])
     <> Length (VMapStringInterface
                  [("b", VOther "func()" noMethods (ROther reflect.Func));
                   ("a", VInt Tint 1)])
  /\ snd (Length (VMapStringInterface
                    [("a", VOther "func()" noMethods (ROther reflect.Func));
                     ("b", VOther "chan int" noMethods (ROther reflect.Chan))]))
     <> snd (Length (VMapStringInterface
                       [("b", VOther "chan int" noMethods (ROther reflect.Chan));
                        ("a", VOther "func()" noMethods (ROther reflect.Func))])).
Proof.
  split; [apply same_map, perm_swap|].
  split; vm_compute; discriminate.
Qed.

(** C9, amended.  [Length] is a function of the value and of the order in
    which the entries of its maps are traversed.  For two traversals of one
    value, differing in the order of the entries of its maps at any depth:
    either both measure successfully or both fail; and when they measure
    successfully they return the same length, so the length of a value that
    measures is independent of the traversal order. *)
Theorem Length_deterministic (v v' : value) :
  sameValue v v' ->
  (measures v <-> measures v')
  /\ (measures v -> Length v' = Length v)
  /\ (measures v -> lengthOf v' = lengthOf v).
Proof.
  intros Hs. destruct (sameValue_agree v v' Hs) as [H1 H2].
  split; [|split].
  - unfold measures in *. split; intros Hm.
    + rewrite (H1 Hm). exact Hm.
    + rewrite (H2 Hm). exact Hm.
  - exact H1.
  - intros Hm. unfold lengthOf. rewrite (H1 Hm). reflexivity.
Qed.

Lemma Length_deterministic_witness :
  Length (VMapStringInterface
            [("b", VSliceInterface [VNil]); ("a", VInt Tint 1)])
  = Length (VMapStringInterface
              [("a", VInt Tint 1); ("b", VSliceInterface [VNil])]).
Proof.
  refine (proj1 (proj2 (Length_deterministic
                          (VMapStringInterface
                             [("a", VInt Tint 1); ("b", VSliceInterface [VNil])])
                          (VMapStringInterface
                             [("b", VSliceInterface [VNil]); ("a", VInt Tint 1)])
                          _)) _).
  - apply same_map, perm_swap.
  - reflexivity.
Defined.

(* ===================================================================== *)
(** * More on integers *)
(* ===================================================================== *)

Lemma digitCount_nonzero_pos (v : Z) : 1 <= digitCount v.
Proof.
  destruct (Z.eq_dec v 0) as [->|Hv]; [rewrite digitCount_0; lia|].
  apply digitCount_bounds, Hv.
Qed.

Lemma digitCount_opp (v : Z) : digitCount (- v) = digitCount v.
Proof. unfold digitCount. destruct v; reflexivity. Qed.

(** The number of digits is the only [d] between whose powers of ten the
    number lies. *)
Lemma digitCount_unique (v d : Z) :
  1 <= d -> 10 ^ (d - 1) <= Z.abs v < 10 ^ d -> digitCount v = d.
Proof.
  intros Hd [Hlo Hup].
  assert (Hv : v <> 0) by (pose proof (Z.pow_pos_nonneg 10 (d - 1)); lia).
  destruct (digitCount_bounds v Hv) as [H1 [Hlo' Hup']].
  destruct (Z.lt_trichotomy (digitCount v) d) as [Hlt | [Heq | Hgt]];
    [exfalso | exact Heq | exfalso].
  - assert (10 ^ digitCount v <= 10 ^ (d - 1)) by (apply Z.pow_le_mono_r; lia). lia.
  - assert (10 ^ d <= 10 ^ (digitCount v - 1)) by (apply Z.pow_le_mono_r; lia). lia.
Qed.

Lemma digitCount_mono (a b : Z) :
  Z.abs a <= Z.abs b -> digitCount a <= digitCount b.
Proof.
  intros Hab. pose proof (digitCount_nonzero_pos b) as Hb1.
  destruct (Z.eq_dec a 0) as [->|Ha]; [rewrite digitCount_0; exact Hb1|].
  assert (Hb : b <> 0) by lia.
  destruct (digitCount_bounds a Ha) as [_ [Hlo _]].
  destruct (digitCount_bounds b Hb) as [_ [_ Hup]].
  destruct (Z_le_gt_dec (digitCount a) (digitCount b)) as [|Hgt]; [assumption|exfalso].
  assert (10 ^ digitCount b <= 10 ^ (digitCount a - 1)) by (apply Z.pow_le_mono_r; lia).
  lia.
Qed.

(** The length of an integer is bounded: from 1 to 20 bytes for an [int64]
    (20 only with the minus sign: a non-negative one takes at most 19) and
    for a [uint64], and both bounds are reached. *)
Theorem jsonLenInt_bounds (v w : Z) :
  Int.fits v -> Int.ufits w ->
  1 <= jsonLenInt v <= 20
  /\ (0 <= v -> jsonLenInt v <= 19)
  /\ 1 <= jsonLenUint w <= 20
  /\ jsonLenInt Int.MinInt = 20
  /\ jsonLenInt Int.MaxInt = 19
  /\ jsonLenUint Int.MaxUint = 20.
Proof.
  intros Hv Hw. rewrite fits_iff in Hv. unfold Int.ufits in Hw. rewrite MaxUint_val in Hw.
  assert (Hv' : Z.abs v <= Int.MaxUint) by (rewrite MaxUint_val; lia).
  assert (Hw' : Z.abs w <= Int.MaxUint) by (rewrite MaxUint_val; lia).
  rewrite (jsonLenInt_digits v Hv'), (jsonLenUint_digits w Hw').
  pose proof (digitCount_nonzero_pos v) as Hv1.
  pose proof (digitCount_nonzero_pos w) as Hw1.
  pose proof (digitCount_small w Hw') as Hw20.
  assert (Hv19 : digitCount v <= 19).
  { replace 19 with (digitCount 9223372036854775808) by reflexivity.
    apply digitCount_mono. lia. }
  repeat split; try lia; try reflexivity.
  - destruct (v <? 0); lia.
  - destruct (v <? 0); lia.
  - intros H0. destruct (Z.ltb_spec v 0); lia.
Qed.

Lemma jsonLenInt_bounds_witness :
  1 <= jsonLenInt (-42) <= 20 /\ 1 <= jsonLenUint 7 <= 20.
Proof.
  assert (Hv : Int.fits (-42)) by (apply fitsb_fits; reflexivity).
  assert (Hw : Int.ufits 7) by (unfold Int.ufits; rewrite MaxUint_val; lia).
  destruct (jsonLenInt_bounds (-42) 7 Hv Hw) as [H1 [_ [H3 _]]].
  split; [exact H1 | exact H3].
Defined.

(** The minus sign costs one byte, and nothing else changes: a negative
    [int64] measures one more than its absolute value; and a non-negative
    number measures the same as signed and as unsigned. *)
Theorem jsonLenInt_sign (v : Z) :
  0 < v <= Int.MaxInt ->
  jsonLenInt (- v) = jsonLenInt v + 1
  /\ jsonLenInt v = jsonLenUint v
  /\ Length (VInt Tint64 (- v)) = (lengthOf (VUint Tuint64 v) + 1, None).
Proof.
  intros Hv. rewrite MaxInt_val in Hv.
  assert (H1 : Z.abs v <= Int.MaxUint) by (rewrite MaxUint_val; lia).
  assert (H2 : Z.abs (- v) <= Int.MaxUint) by (rewrite MaxUint_val; lia).
  unfold lengthOf. cbn [Length fst].
  rewrite (jsonLenInt_digits _ H1), (jsonLenInt_digits _ H2), (jsonLenUint_digits _ H1).
  rewrite digitCount_opp.
  destruct (Z.ltb_spec (- v) 0); [|lia]. destruct (Z.ltb_spec v 0); [lia|].
  repeat split; f_equal; lia.
Qed.

Lemma jsonLenInt_sign_witness : jsonLenInt (- 1000) = jsonLenInt 1000 + 1.
Proof.
  assert (H : 0 < 1000 <= Int.MaxInt) by (rewrite MaxInt_val; lia).
  exact (proj1 (jsonLenInt_sign 1000 H)).
Defined.

(** The length of an unsigned number tells its magnitude: [v] measures
    [k + 1] bytes exactly when [10^k <= v < 10^(k+1)]; hence a larger number
    never measures less, and a tenfold number measures one more. *)
Theorem jsonLenUint_magnitude (v k : Z) :
  0 < v <= Int.MaxUint -> 0 <= k ->
  (jsonLenUint v = k + 1 <-> 10 ^ k <= v < 10 ^ (k + 1))
  /\ (forall w : Z, 0 <= w <= v -> jsonLenUint w <= jsonLenUint v)
  /\ (10 * v <= Int.MaxUint -> jsonLenUint (10 * v) = jsonLenUint v + 1).
Proof.
  intros Hv Hk.
  assert (Hv' : Z.abs v <= Int.MaxUint) by lia.
  assert (Hnz : v <> 0) by lia.
  rewrite (jsonLenUint_digits v Hv').
  destruct (digitCount_bounds v Hnz) as [H1 [Hlo Hup]].
  rewrite Z.abs_eq in Hlo, Hup by lia.
  split; [|split].
  - split.
    + intros Hd. replace k with (digitCount v - 1) by lia.
      replace (digitCount v - 1 + 1) with (digitCount v) by lia. split; assumption.
    + intros Hb. apply digitCount_unique; [lia|].
      rewrite Z.abs_eq by lia. replace (k + 1 - 1) with k by lia. exact Hb.
  - intros w Hw. rewrite (jsonLenUint_digits w) by lia.
    apply digitCount_mono. lia.
  - intros H10. rewrite (jsonLenUint_digits (10 * v)) by lia.
    apply digitCount_unique; [lia|]. rewrite Z.abs_eq by lia.
    replace (digitCount v + 1 - 1) with (Z.succ (digitCount v - 1)) by lia.
    replace (digitCount v + 1) with (Z.succ (digitCount v)) by lia.
    rewrite !Z.pow_succ_r by lia. lia.
Qed.

Lemma jsonLenUint_magnitude_witness :
  jsonLenUint 999 = 2 + 1 <-> 10 ^ 2 <= 999 < 10 ^ (2 + 1).
Proof.
  assert (Hv : 0 < 999 <= Int.MaxUint) by (rewrite MaxUint_val; lia).
  assert (Hk : 0 <= 2) by lia.
  exact (proj1 (jsonLenUint_magnitude 999 2 Hv Hk)).
Defined.

(* ===================================================================== *)
(** * More on strings and byte slices *)
(* ===================================================================== *)

Lemma len_append (s1 s2 : string) : len (s1 ++ s2) = len s1 + len s2.
Proof.
  induction s1 as [|c s1 IH]; cbn [append].
  - unfold len. cbn. lia.
  - rewrite !len_String, IH. lia.
Qed.

Lemma countEscapes_append (s1 s2 : string) :
  countEscapes (s1 ++ s2) = countEscapes s1 + countEscapes s2.
Proof.
  unfold countEscapes.
  induction s1 as [|c s1 IH]; cbn [append list_ascii_of_string filter].
  - unfold lenl at 2. cbn. lia.
  - destruct (needsEscape c); [rewrite !lenl_cons, IH; lia | exact IH].
Qed.

(** Escaping at most doubles a string: its length lies between
    [2 + len(s)], reached exactly when no byte takes an escape, and
    [2 + 2 * len(s)], reached exactly when every byte does. *)
Theorem jsonLenString_bounds (s : string) :
  Int.fits (2 + 2 * len s) ->
  2 + len s <= jsonLenString s <= 2 + 2 * len s
  /\ (jsonLenString s = 2 + len s <-> countEscapes s = 0)
  /\ (jsonLenString s = 2 + 2 * len s <-> countEscapes s = len s).
Proof.
  intros Hfits. rewrite fits_iff in Hfits.
  pose proof (len_nonneg s) as Hl. pose proof (countEscapes_bounds s) as Hc.
  rewrite jsonLenString_wrap, wrap_fits by (apply fits_iff; lia).
  repeat split; intros; lia.
Qed.

Lemma jsonLenString_bounds_witness :
  2 + len "a/b" <= jsonLenString "a/b" <= 2 + 2 * len "a/b".
Proof.
  assert (H : Int.fits (2 + 2 * len "a/b")) by (apply fitsb_fits; reflexivity).
  exact (proj1 (jsonLenString_bounds "a/b" H)).
Defined.

(** The length of a concatenation is the sum of the lengths, less the one
    pair of quotes that is saved; where the strings are cut does not matter,
    even inside a multi-byte rune. *)
Theorem jsonLenString_append (s1 s2 : string) :
  Int.fits (2 + 2 * len (s1 ++ s2)) ->
  jsonLenString (s1 ++ s2) = jsonLenString s1 + jsonLenString s2 - 2.
Proof.
  intros Hfits. rewrite fits_iff in Hfits. rewrite len_append in Hfits.
  pose proof (len_nonneg s1). pose proof (len_nonneg s2).
  pose proof (countEscapes_bounds s1). pose proof (countEscapes_bounds s2).
  rewrite !jsonLenString_wrap, len_append, countEscapes_append.
  rewrite !wrap_fits by (apply fits_iff; lia). lia.
Qed.

Lemma jsonLenString_append_witness :
  jsonLenString ("a/" ++ "b") = jsonLenString "a/" + jsonLenString "b" - 2.
Proof.
  assert (H : Int.fits (2 + 2 * len ("a/" ++ "b"))) by (apply fitsb_fits; reflexivity).
  exact (jsonLenString_append "a/" "b" H).
Defined.

(** Every three bytes of a slice add four, and the one or two left over add
    one each: [jsonLenBytes(b) = 2 + len(b) + len(b) / 3].  So the length
    grows with the slice, and it is 2 plus [EncodedLen], the length of the
    padded base64 text, exactly when [len(b)] is a multiple of 3; otherwise
    it is less, by 3 with one byte left over and by 2 with two. *)
Theorem jsonLenBytes_groups (b : list byte) :
  lenl b * 4 <= Int.MaxInt ->
  jsonLenBytes b = 2 + lenl b + lenl b / 3
  /\ (forall b' : list byte, lenl b' <= lenl b -> jsonLenBytes b' <= jsonLenBytes b)
  /\ (jsonLenBytes b = 2 + EncodedLen (lenl b) <-> lenl b mod 3 = 0)
  /\ (lenl b mod 3 = 1 -> jsonLenBytes b = 2 + EncodedLen (lenl b) - 3)
  /\ (lenl b mod 3 = 2 -> jsonLenBytes b = 2 + EncodedLen (lenl b) - 2).
Proof.
  intros Hb. pose proof (lenl_nonneg b) as H0.
  rewrite (jsonLenBytes_formula b Hb). unfold EncodedLen.
  pose proof (Z.div_mod (lenl b) 3 ltac:(lia)) as Hdm.
  pose proof (Z.mod_pos_bound (lenl b) 3 ltac:(lia)) as Hm.
  assert (Hcase : lenl b mod 3 = 0 \/ lenl b mod 3 = 1 \/ lenl b mod 3 = 2) by lia.
  assert (H43 : lenl b * 4 / 3 = lenl b + lenl b / 3).
  { replace (lenl b * 4) with (4 * (lenl b mod 3) + (4 * (lenl b / 3)) * 3) by lia.
    rewrite Z.div_add by lia.
    assert (Hr : 4 * (lenl b mod 3) / 3 = lenl b mod 3)
      by (destruct Hcase as [E | [E | E]]; rewrite E; reflexivity).
    lia. }
  assert (Henc : (lenl b + 2) / 3 = lenl b / 3 + (if lenl b mod 3 =? 0 then 0 else 1)).
  { replace (lenl b + 2) with ((lenl b mod 3 + 2) + (lenl b / 3) * 3) by lia.
    rewrite Z.div_add by lia.
    assert (Hr : (lenl b mod 3 + 2) / 3 = if lenl b mod 3 =? 0 then 0 else 1)
      by (destruct Hcase as [E | [E | E]]; rewrite E; reflexivity).
    lia. }
  rewrite H43, Henc.
  split; [lia|]. split; [|split; [|split]].
  - intros b' Hb'. pose proof (lenl_nonneg b') as H0'.
    rewrite (jsonLenBytes_formula b') by lia.
    assert (lenl b' * 4 / 3 <= lenl b * 4 / 3) by (apply Z.div_le_mono; lia).
    lia.
  - destruct (Z.eqb_spec (lenl b mod 3) 0); split; intros; lia.
  - intros E. rewrite E. cbn [Z.eqb]. lia.
  - intros E. rewrite E. cbn [Z.eqb]. lia.
Qed.

Lemma jsonLenBytes_groups_witness :
  jsonLenBytes [x01; x02; x03; x04] = 2 + 4 + 4 / 3.
Proof.
  assert (H : lenl [x01; x02; x03; x04] * 4 <= Int.MaxInt) by (cbv; discriminate).
  exact (proj1 (jsonLenBytes_groups [x01; x02; x03; x04] H)).
Defined.

(* ===================================================================== *)
(** * More on mappings and sequences *)
(* ===================================================================== *)

(** For every [map[string]interface{}] whose values all measure (the total
    being representable in an [int]), [Length] returns 2 for the braces,
    plus for each entry the length of the quoted key, 1 for the colon and the
    length of the value, plus one separator less than there are entries; an
    empty map measures 2. *)
Theorem Length_map_string_interface (m : list (string * value)) :
  Forall measuresEntry m ->
  Int.fits (2 + sumZ (map entryBytes m) + separators (lenl m)) ->
  Length (VMapStringInterface m)
  = (2 + sumZ (map entryBytes m) + separators (lenl m), None).
Proof.
  intros Hm Hfits. cbn [Length].
  rewrite (jsonLenMapStringInterface_wrap m Hm), wrap_fits by exact Hfits.
  reflexivity.
Qed.

Lemma Length_map_string_interface_witness :
  Length (VMapStringInterface [("a", VInt Tint 1); ("b/", VNil)]) = (18, None).
Proof.
  refine (Length_map_string_interface [("a", VInt Tint 1); ("b/", VNil)] _ _).
  - repeat constructor.
  - apply fitsb_fits. reflexivity.
Defined.

(** The two loops over a sequence fail together, at the same element. *)
Lemma jsonLenArray_loop_snd (s : list value) : forall i n n' : Z,
  snd (jsonLenArray_loop Length i (map (Value.mk true) s) n)
  = snd (jsonLenSliceInterface_loop Length s n').
Proof.
  induction s as [|v s IH]; intros i n n';
    cbn [map jsonLenArray_loop jsonLenSliceInterface_loop Value.CanInterface
         Value.Interface negb]; [reflexivity|].
  destruct (Length v) as [c [e|]]; [reflexivity | apply IH].
Qed.

Lemma jsonLenMap_loop_snd (m : list (string * value)) : forall i n n' : Z,
  snd (jsonLenMap_loop Length i
         (map (fun kv => (Value.mk true (VString (fst kv)), snd kv)) m) n)
  = snd (jsonLenMapStringInterface_loop Length m n').
Proof.
  induction m as [|[k v] m IH]; intros i n n';
    cbn [map jsonLenMap_loop jsonLenMapStringInterface_loop Value.CanInterface
         Value.Interface negb fst snd Length]; [reflexivity|].
  destruct (Length v) as [c [e|]]; [reflexivity | apply IH].
Qed.

(** The cases of the type switch for the basic types and the two generic
    containers are a short cut and nothing more: were such a value handed to
    [jsonLenV] instead, it would fail in the same cases with the same error,
    and a value that measures would get the same length. *)
Theorem switch_agrees_with_reflection (v : value) :
  namedInSwitch v = true ->
  snd (byReflection v) = snd (Length v)
  /\ (measures v -> byReflection v = Length v).
Proof.
  unfold byReflection, measures.
  destruct v as [ |x|t x|t x|t x|x|x|m|s|x|t ms r]; try discriminate; intros _;
    try (split; [reflexivity | intros _; reflexivity]).
  - (* []byte *)
    assert (H : jsonLenV Length (TypeOf (VBytes x)) (ValueOf (VBytes x))
                = Length (VBytes x)).
    { cbn. f_equal. apply jsonLenBytes_length.
      rewrite Bytes_length. unfold lenl. rewrite length_map. reflexivity. }
    rewrite H. split; [reflexivity | intros _; reflexivity].
  - (* map[string]interface{} *)
    cbn [TypeOf ValueOf jsonLenV Length].
    unfold jsonLenMap, jsonLenMapStringInterface. rewrite !snd_andThen.
    split; [apply jsonLenMap_loop_snd|].
    intros Hm. apply jsonLenMapStringInterface_loop_measures in Hm.
    fold (jsonLenMap Length (map (fun kv => (Value.mk true (VString (fst kv)), snd kv)) m)).
    fold (jsonLenMapStringInterface Length m).
    rewrite (jsonLenMapStringInterface_wrap m Hm), jsonLenMap_wrap.
    + rewrite map_map. unfold lenl. rewrite length_map. reflexivity.
    + rewrite Forall_map. rewrite Forall_forall in *. intros kv Hkv.
      split; [split; reflexivity | exact (Hm kv Hkv)].
  - (* []interface{} *)
    cbn [TypeOf ValueOf jsonLenV Length]. cbn [reflect.Kind_eqb].
    change (reflect.Kind_eqb reflect.Interface reflect.Uint8) with false. cbv iota.
    unfold jsonLenArray, jsonLenSliceInterface. rewrite !snd_andThen.
    split; [apply jsonLenArray_loop_snd|].
    intros Hs. apply jsonLenSliceInterface_loop_measures in Hs.
    fold (jsonLenArray Length (map (Value.mk true) s)).
    fold (jsonLenSliceInterface Length s).
    rewrite (jsonLenSliceInterface_wrap s Hs), jsonLenArray_wrap.
    + rewrite map_map. unfold lenl. rewrite length_map. reflexivity.
    + rewrite Forall_map. rewrite Forall_forall in *. intros x Hx.
      split; [reflexivity | exact (Hs x Hx)].
Qed.

Lemma switch_agrees_with_reflection_witness :
  byReflection (VSliceInterface [VString "a"; VBytes [x01]])
  = Length (VSliceInterface [VString "a"; VBytes [x01]]).
Proof.
  refine (proj2 (switch_agrees_with_reflection
                   (VSliceInterface [VString "a"; VBytes [x01]]) _) _);
    reflexivity.
Defined.

Lemma sumZ_app (l1 l2 : list Z) : sumZ (l1 ++ l2) = sumZ l1 + sumZ l2.
Proof.
  induction l1 as [|a l1 IH]; cbn [app]; [cbn; lia|].
  rewrite !sumZ_cons, IH. lia.
Qed.

Lemma lenl_app {A : Type} (l1 l2 : list A) : lenl (l1 ++ l2) = lenl l1 + lenl l2.
Proof. unfold lenl. rewrite length_app. lia. Qed.

Lemma separators_add (a b : Z) :
  0 <= a -> 0 <= b ->
  separators (a + b)
  = separators a + separators b + (if (0 <? a) && (0 <? b) then 1 else 0).
Proof.
  intros Ha Hb. unfold separators.
  destruct (Z.ltb_spec 1 (a + b)), (Z.ltb_spec 1 a), (Z.ltb_spec 1 b),
           (Z.ltb_spec 0 a), (Z.ltb_spec 0 b); cbn [andb]; lia.
Qed.

Lemma separators_nonneg (n : Z) : 0 <= separators n.
Proof. unfold separators. destruct (Z.ltb_spec 1 n); lia. Qed.

Lemma measuresNonneg_sum (s : list value) :
  Forall measuresNonneg s -> 0 <= sumZ (map lengthOf s).
Proof.
  induction 1 as [|v s [_ Hv] _ IH]; cbn [map]; [cbn; lia|].
  rewrite sumZ_cons. lia.
Qed.

(** Joining two sequences joins their lengths: the elements are counted
    once, one pair of brackets goes, and one separator comes in when neither
    sequence is empty. *)
Theorem Length_sequence_append (s1 s2 : list value) :
  Forall measuresNonneg (s1 ++ s2) ->
  Int.fits (2 + sumZ (map lengthOf (s1 ++ s2)) + separators (lenl (s1 ++ s2))) ->
  Length (VSliceInterface (s1 ++ s2))
  = (lengthOf (VSliceInterface s1) + lengthOf (VSliceInterface s2) - 2
     + (if (0 <? lenl s1) && (0 <? lenl s2) then 1 else 0), None).
Proof.
  intros Hs Hfits.
  assert (Hm : Forall measures (s1 ++ s2))
    by (eapply Forall_impl; [|exact Hs]; intros v [H _]; exact H).
  pose proof Hs as Hs'. apply Forall_app in Hs'. destruct Hs' as [Hs1 Hs2].
  pose proof Hm as Hm'. apply Forall_app in Hm'. destruct Hm' as [Hm1 Hm2].
  pose proof (measuresNonneg_sum s1 Hs1) as H1.
  pose proof (measuresNonneg_sum s2 Hs2) as H2.
  pose proof (lenl_nonneg s1) as Hl1. pose proof (lenl_nonneg s2) as Hl2.
  pose proof (separators_nonneg (lenl s1)) as Hp1.
  pose proof (separators_nonneg (lenl s2)) as Hp2.
  rewrite map_app, sumZ_app, lenl_app, (separators_add _ _ Hl1 Hl2) in Hfits.
  rewrite fits_iff in Hfits.
  assert (Hb : 0 <= (if (0 <? lenl s1) && (0 <? lenl s2) then 1 else 0))
    by (destruct ((0 <? lenl s1) && (0 <? lenl s2)); lia).
  unfold lengthOf. cbn [Length].
  rewrite (jsonLenSliceInterface_wrap _ Hm), (jsonLenSliceInterface_wrap _ Hm1),
          (jsonLenSliceInterface_wrap _ Hm2).
  rewrite map_app, sumZ_app, lenl_app, (separators_add _ _ Hl1 Hl2).
  rewrite !wrap_fits by (apply fits_iff; lia).
  cbn [fst]. f_equal. lia.
Qed.

Lemma Length_sequence_append_witness :
  Length (VSliceInterface ([VInt Tint 1; VNil] ++ [VString "a"])) = (12, None).
Proof.
  refine (Length_sequence_append [VInt Tint 1; VNil] [VString "a"] _ _).
  - repeat constructor; vm_compute; discriminate.
  - apply fitsb_fits. reflexivity.
Defined.

(* ===================================================================== *)
(** * More on records *)
(* ===================================================================== *)

(** The total of a record whose emitted fields can be measured. *)
Lemma jsonLenStruct_total (s : list (StructEntry value)) :
  Forall fieldOK s ->
  Int.fits (recordTotal s) ->
  jsonLenStruct Length s = (recordTotal s, None).
Proof.
  unfold recordTotal. intros Hs Hfits. unfold jsonLenStruct.
  pose proof (emitted_sum_nonneg s Hs) as Hsum.
  pose proof (separators_nonneg (lenl (filter emitted s))) as Hsep.
  rewrite fits_iff in Hfits.
  rewrite jsonLenStruct_loop_sum; try assumption; try lia.
  - cbn [andThen]. f_equal. unfold separatorsAfter. cbn [Z.eqb].
    unfold Int.add. rewrite wrap_fits by (apply fits_iff; lia). lia.
  - unfold separatorsAfter. cbn [Z.eqb]. apply fits_iff. lia.
Qed.

Lemma recordTotal_bounds (s : list (StructEntry value)) :
  Forall fieldOK s -> 2 <= recordTotal s.
Proof.
  intros Hs. unfold recordTotal.
  pose proof (emitted_sum_nonneg s Hs).
  pose proof (separators_nonneg (lenl (filter emitted s))). lia.
Qed.

(** A record measures as the [map[string]interface{}] of its emitted
    fields does: the reflection over a struct and the loop over a generic
    map frame the same entries the same way. *)
Theorem Length_record_as_map (t : reflect.Type_) (s : list (StructEntry value)) :
  Forall fieldOK s ->
  Int.fits (recordTotal s) ->
  Length (VOther t noMethods (RStruct s)) = Length (VMapStringInterface (emittedFields s)).
Proof.
  intros Hs Hfits.
  cbn [Length noMethods LengthJSON MarshalJSON MarshalText jsonLenV].
  rewrite (jsonLenStruct_total s Hs Hfits).
  assert (Hm : Forall measuresEntry (emittedFields s)).
  { unfold emittedFields. rewrite Forall_map. rewrite Forall_forall in *.
    intros e He. apply filter_In in He. destruct He as [Hin Hem].
    unfold measuresEntry. cbn [snd]. exact (proj2 (proj1 (Hs e Hin Hem))). }
  rewrite (jsonLenMapStringInterface_wrap _ Hm).
  unfold emittedFields at 1 2. rewrite map_map. unfold lenl at 1.
  rewrite length_map. fold (lenl (filter emitted s)).
  change (map (fun x => entryBytes (Name (f x), Value.Interface (fv x))) (filter emitted s))
    with (map fieldBytes (filter emitted s)).
  fold (recordTotal s). rewrite wrap_fits by exact Hfits. reflexivity.
Qed.

Lemma Length_record_as_map_witness :
  Length (VOther "T" noMethods
            (RStruct [mkStructEntry (mkStructField [0%nat] "Name" false) false
                        (Value.mk true (VString "Al"));
                      mkStructEntry (mkStructField [1%nat] "Age" true) true
                        (Value.mk true (VInt Tint 0))]))
  = Length (VMapStringInterface [("Name", VString "Al")]).
Proof.
  refine (Length_record_as_map "T"
            [mkStructEntry (mkStructField [0%nat] "Name" false) false
               (Value.mk true (VString "Al"));
             mkStructEntry (mkStructField [1%nat] "Age" true) true
               (Value.mk true (VInt Tint 0))] _ _).
  - constructor; [|constructor; [|constructor]]; intros E.
    + split; [split; reflexivity|]. split; [vm_compute; discriminate|].
      apply fitsb_fits. reflexivity.
    + discriminate E.
  - apply fitsb_fits. reflexivity.
Defined.

(** What a field costs: a record with an emitted field measures more than
    the record without it by the quoted key, the colon and the value of the
    field, and by one separator when another field is emitted too.  With the
    omitted case (the record measures as without the field), this is what
    the length changes by when an omit-when-empty field turns empty. *)
Theorem Length_record_field_cost
        (t : reflect.Type_) (s1 s2 : list (StructEntry value)) (e : StructEntry value) :
  emitted e = true ->
  Forall fieldOK (s1 ++ e :: s2) ->
  Int.fits (recordTotal (s1 ++ e :: s2)) ->
  Length (VOther t noMethods (RStruct (s1 ++ e :: s2)))
  = (lengthOf (VOther t noMethods (RStruct (s1 ++ s2))) + fieldBytes e
     + (if 0 <? lenl (filter emitted (s1 ++ s2)) then 1 else 0), None).
Proof.
  intros He Hs Hfits.
  assert (Hs' : Forall fieldOK (s1 ++ s2)).
  { apply Forall_app in Hs. destruct Hs as [H1 H2]. inversion H2; subst.
    apply Forall_app. split; assumption. }
  assert (Hfe : fieldOK e) by (exact (Forall_elt_inv _ _ _ _ Hs)).
  pose proof (fieldBytes_pos e Hfe He) as Hpos.
  pose proof (recordTotal_bounds _ Hs') as Hlow.
  assert (Htot : recordTotal (s1 ++ e :: s2)
                 = recordTotal (s1 ++ s2) + fieldBytes e
                   + (if 0 <? lenl (filter emitted (s1 ++ s2)) then 1 else 0)).
  { unfold recordTotal. rewrite !filter_app. cbn [filter]. rewrite He.
    rewrite !map_app. cbn [map]. rewrite !sumZ_app, sumZ_cons, !lenl_app, lenl_cons.
    pose proof (lenl_nonneg (filter emitted s1)) as Ha.
    pose proof (lenl_nonneg (filter emitted s2)) as Hb.
    unfold separators.
    destruct (Z.ltb_spec 1 (lenl (filter emitted s1) + (1 + lenl (filter emitted s2)))),
             (Z.ltb_spec 1 (lenl (filter emitted s1) + lenl (filter emitted s2))),
             (Z.ltb_spec 0 (lenl (filter emitted s1) + lenl (filter emitted s2))); lia. }
  assert (Hfits' : Int.fits (recordTotal (s1 ++ s2))).
  { rewrite fits_iff in *. rewrite Htot in Hfits.
    destruct (0 <? lenl (filter emitted (s1 ++ s2))); lia. }
  unfold lengthOf.
  cbn [Length noMethods LengthJSON MarshalJSON MarshalText jsonLenV].
  rewrite (jsonLenStruct_total _ Hs Hfits), (jsonLenStruct_total _ Hs' Hfits').
  cbn [fst]. rewrite Htot. reflexivity.
Qed.

Lemma Length_record_field_cost_witness :
  Length (VOther "T" noMethods
            (RStruct ([mkStructEntry (mkStructField [0%nat] "A" false) false
                         (Value.mk true (VInt Tint 1))]
                      ++ mkStructEntry (mkStructField [1%nat] "B" true) false
                           (Value.mk true (VInt Tint 22)) :: [])))
  = (14, None).
Proof.
  refine (Length_record_field_cost "T"
            [mkStructEntry (mkStructField [0%nat] "A" false) false
               (Value.mk true (VInt Tint 1))]
            []
            (mkStructEntry (mkStructField [1%nat] "B" true) false
               (Value.mk true (VInt Tint 22))) _ _ _).
  - reflexivity.
  - constructor; [|constructor; [|constructor]]; intros E;
      (split; [split; reflexivity|]; split; [vm_compute; discriminate|];
       apply fitsb_fits; reflexivity).
  - apply fitsb_fits. reflexivity.
Defined.

(* ===================================================================== *)
(** * Induction on values *)
(* ===================================================================== *)

(** Structural induction on a value, through the lists, pairs and handles
    that nest values in it. *)
Section ValueInduction.

Variable P : value -> Prop.
Variable Q : rvalue -> Prop.

Hypothesis HNil : P VNil.
Hypothesis HBool : forall x, P (VBool x).
Hypothesis HInt : forall t x, P (VInt t x).
Hypothesis HUint : forall t x, P (VUint t x).
Hypothesis HFloat : forall t x, P (VFloat t x).
Hypothesis HString : forall x, P (VString x).
Hypothesis HBytes : forall x, P (VBytes x).
Hypothesis HMapStringInterface :
  forall x, Forall (fun kv => P (snd kv)) x -> P (VMapStringInterface x).
Hypothesis HSliceInterface : forall x, Forall P x -> P (VSliceInterface x).
Hypothesis HNumber : forall x, P (VNumber x).
Hypothesis HOther : forall t ms r, Q r -> P (VOther t ms r).
Hypothesis QInvalid : Q RInvalid.
Hypothesis QStruct :
  forall s, Forall (fun e => P (Value.Interface (fv e))) s -> Q (RStruct s).
Hypothesis QMap :
  forall m, Forall (fun kv => P (Value.Interface (fst kv)) /\ P (snd kv)) m -> Q (RMap m).
Hypothesis QSlice :
  forall k s, Forall (fun e => P (Value.Interface e)) s -> Q (RSlice k s).
Hypothesis QArray :
  forall s, Forall (fun e => P (Value.Interface e)) s -> Q (RArray s).
Hypothesis QPtrNil : Q (RPtr None).
Hypothesis QPtr : forall e, P (Value.Interface e) -> Q (RPtr (Some e)).
Hypothesis QInterfaceNil : Q (RInterface None).
Hypothesis QInterface : forall e, P (Value.Interface e) -> Q (RInterface (Some e)).
Hypothesis QBool : forall x, Q (RBool x).
Hypothesis QInt : forall x, Q (RInt x).
Hypothesis QUint : forall x, Q (RUint x).
Hypothesis QFloat : forall x, Q (RFloat x).
Hypothesis QString : forall x, Q (RString x).
Hypothesis QOther : forall k, Q (ROther k).

Fixpoint value_nested_ind (v : value) : P v :=
  match v with
  | VNil => HNil
  | VBool x => HBool x
  | VInt t x => HInt t x
  | VUint t x => HUint t x
  | VFloat t x => HFloat t x
  | VString x => HString x
  | VBytes x => HBytes x
  | VMapStringInterface x =>
      HMapStringInterface x
        ((fix go (l : list (string * value)) : Forall (fun kv => P (snd kv)) l :=
            match l with
            | [] => Forall_nil _
            | kv :: l' => Forall_cons kv (value_nested_ind (snd kv)) (go l')
            end) x)
  | VSliceInterface x =>
      HSliceInterface x
        ((fix go (l : list value) : Forall P l :=
            match l with
            | [] => Forall_nil _
            | a :: l' => Forall_cons a (value_nested_ind a) (go l')
            end) x)
  | VNumber x => HNumber x
  | VOther t ms r => HOther t ms r (rvalue_nested_ind r)
  end
with rvalue_nested_ind (r : rvalue) : Q r :=
  match r with
  | RInvalid => QInvalid
  | RStruct s =>
      QStruct s
        ((fix go (l : list (StructEntry value))
            : Forall (fun e => P (Value.Interface (fv e))) l :=
            match l with
            | [] => Forall_nil _
            | e :: l' =>
                Forall_cons e (value_nested_ind (Value.Interface (fv e))) (go l')
            end) s)
  | RMap m =>
      QMap m
        ((fix go (l : list (Value.t value * value))
            : Forall (fun kv => P (Value.Interface (fst kv)) /\ P (snd kv)) l :=
            match l with
            | [] => Forall_nil _
            | kv :: l' =>
                Forall_cons kv
                  (conj (value_nested_ind (Value.Interface (fst kv)))
                        (value_nested_ind (snd kv)))
                  (go l')
            end) m)
  | RSlice k s =>
      QSlice k s
        ((fix go (l : list (Value.t value))
            : Forall (fun e => P (Value.Interface e)) l :=
            match l with
            | [] => Forall_nil _
            | e :: l' => Forall_cons e (value_nested_ind (Value.Interface e)) (go l')
            end) s)
  | RArray s =>
      QArray s
        ((fix go (l : list (Value.t value))
            : Forall (fun e => P (Value.Interface e)) l :=
            match l with
            | [] => Forall_nil _
            | e :: l' => Forall_cons e (value_nested_ind (Value.Interface e)) (go l')
            end) s)
  | RPtr None => QPtrNil
  | RPtr (Some e) => QPtr e (value_nested_ind (Value.Interface e))
  | RInterface None => QInterfaceNil
  | RInterface (Some e) => QInterface e (value_nested_ind (Value.Interface e))
  | RBool x => QBool x
  | RInt x => QInt x
  | RUint x => QUint x
  | RFloat x => QFloat x
  | RString x => QString x
  | ROther k => QOther k
  end.

End ValueInduction.

(* ===================================================================== *)
(** * When the measurement succeeds, and what it fails with *)
(* ===================================================================== *)











(** A loop that stopped early stopped on an element that failed, with that
    element's error, or on an element it could not access. *)
Lemma jsonLenSliceInterface_loop_fails (s : list value) (e : error) : forall n : Z,
  snd (jsonLenSliceInterface_loop Length s n) = Some e ->
  exists x : value, In x s /\ snd (Length x) = Some e.
Proof.
  induction s as [|v s IH]; intros n H; cbn [jsonLenSliceInterface_loop] in H;
    [discriminate H|].
  destruct (Length v) as [c [err|]] eqn:E.
  - exists v. split; [left; reflexivity | rewrite E; exact H].
  - destruct (IH _ H) as [x [Hx He]]. exists x. split; [right; exact Hx | exact He].
Qed.

Lemma jsonLenMapStringInterface_loop_fails
      (m : list (string * value)) (e : error) : forall n : Z,
  snd (jsonLenMapStringInterface_loop Length m n) = Some e ->
  exists kv : string * value, In kv m /\ snd (Length (snd kv)) = Some e.
Proof.
  induction m as [|[k v] m IH]; intros n H; cbn [jsonLenMapStringInterface_loop] in H;
    [discriminate H|].
  destruct (Length v) as [c [err|]] eqn:E.
  - exists (k, v). split; [left; reflexivity | cbn [snd]; rewrite E; exact H].
  - destruct (IH _ H) as [x [Hx He]]. exists x. split; [right; exact Hx | exact He].
Qed.

Lemma jsonLenArray_loop_fails (s : list (Value.t value)) (e : error) : forall i n : Z,
  snd (jsonLenArray_loop Length i s n) = Some e ->
  e = Errorf "reflect: cannot call Interface on value %v"
  \/ exists x : Value.t value, In x s /\ snd (Length (Value.Interface x)) = Some e.
Proof.
  induction s as [|v s IH]; intros i n H; cbn [jsonLenArray_loop] in H;
    [discriminate H|].
  destruct (Value.CanInterface v); cbn [negb] in H;
    [|left; cbn [snd] in H; congruence].
  destruct (Length (Value.Interface v)) as [c [err|]] eqn:E.
  - right. exists v. split; [left; reflexivity | rewrite E; exact H].
  - destruct (IH _ _ H) as [He | [x [Hx He]]]; [left; exact He|].
    right. exists x. split; [right; exact Hx | exact He].
Qed.

Lemma jsonLenMap_loop_fails (m : list (Value.t value * value)) (e : error) : forall i n : Z,
  snd (jsonLenMap_loop Length i m n) = Some e ->
  e = Errorf "reflect: cannot call Interface on value %v"
  \/ exists kv : Value.t value * value,
       In kv m
       /\ (snd (Length (Value.Interface (fst kv))) = Some e
           \/ snd (Length (snd kv)) = Some e).
Proof.
  induction m as [|[k v] m IH]; intros i n H; cbn [jsonLenMap_loop] in H;
    [discriminate H|].
  destruct (Value.CanInterface k); cbn [negb] in H;
    [|left; cbn [snd] in H; congruence].
  destruct (Length (Value.Interface k)) as [c1 [err|]] eqn:E1.
  - right. exists (k, v). split; [left; reflexivity|]. left. cbn [fst]. rewrite E1. exact H.
  - destruct (Length v) as [c2 [err|]] eqn:E2.
    + right. exists (k, v). split; [left; reflexivity|]. right. cbn [snd]. rewrite E2. exact H.
    + destruct (IH _ _ H) as [He | [x [Hx He]]]; [left; exact He|].
      right. exists x. split; [right; exact Hx | exact He].
Qed.

Lemma jsonLenStruct_loop_fails (s : list (StructEntry value)) (e : error) : forall n : Z,
  snd (jsonLenStruct_loop Length s n) = Some e ->
  e = Errorf "reflect: cannot call Interface on %v"
  \/ exists x : StructEntry value,
       In x s /\ snd (Length (Value.Interface (fv x))) = Some e.
Proof.
  induction s as [|v s IH]; intros n H; cbn [jsonLenStruct_loop] in H;
    [discriminate H|].
  destruct (Omitempty (f v) && isEmptyValue_fv v).
  - destruct (IH _ H) as [He | [x [Hx He]]]; [left; exact He|].
    right. exists x. split; [right; exact Hx | exact He].
  - destruct (Value.CanInterface (fv v)); cbn [negb] in H;
      [|left; cbn [snd] in H; congruence].
    destruct (Length (Value.Interface (fv v))) as [c [err|]] eqn:E.
    + right. exists v. split; [left; reflexivity | rewrite E; exact H].
    + destruct (IH _ H) as [He | [x [Hx He]]]; [left; exact He|].
      right. exists x. split; [right; exact Hx | exact He].
Qed.

Lemma Length_error_origin_both :
  (forall (v : value) (e : error),
      snd (Length v) = Some e -> madeHere e \/ In e (methodErrors v))
  /\ (forall (r : rvalue) (t : reflect.Type_) (e : error),
        snd (jsonLenV Length t r) = Some e ->
        madeHere e \/ In e (methodErrorsShape methodErrors r)).
Proof.
  set (P := fun v : value => forall e : error,
                snd (Length v) = Some e -> madeHere e \/ In e (methodErrors v)).
  set (Q := fun r : rvalue => forall (t : reflect.Type_) (e : error),
                snd (jsonLenV Length t r) = Some e ->
                madeHere e \/ In e (methodErrorsShape methodErrors r)).
  assert (Helems : forall (s : list (Value.t value)) (e : error),
             Forall (fun x => P (Value.Interface x)) s ->
             snd (jsonLenArray Length s) = Some e ->
             madeHere e
             \/ In e (flat_map (fun x => methodErrors (Value.Interface x)) s)).
  { intros s e IH H. unfold jsonLenArray in H. rewrite snd_andThen in H.
    apply jsonLenArray_loop_fails in H. destruct H as [-> | [x [Hx He]]].
    - left. unfold madeHere. auto.
    - rewrite Forall_forall in IH. destruct (IH x Hx e He) as [Hm | Hin]; [left; exact Hm|].
      right. apply in_flat_map. exists x. split; assumption. }
  assert (HP : forall v, P v).
  { apply (value_nested_ind P Q); subst P Q; cbv beta;
      try (intros; cbn in *; discriminate).
    - (* map[string]interface{} *)
      intros x IH e H. cbn [Length methodErrors] in *.
      unfold jsonLenMapStringInterface in H. rewrite snd_andThen in H.
      apply jsonLenMapStringInterface_loop_fails in H. destruct H as [kv [Hkv He]].
      rewrite Forall_forall in IH. destruct (IH kv Hkv e He) as [Hm | Hin]; [left; exact Hm|].
      right. apply in_flat_map. exists kv. split; assumption.
    - (* []interface{} *)
      intros x IH e H. cbn [Length methodErrors] in *.
      unfold jsonLenSliceInterface in H. rewrite snd_andThen in H.
      apply jsonLenSliceInterface_loop_fails in H. destruct H as [y [Hy He]].
      rewrite Forall_forall in IH. destruct (IH y Hy e He) as [Hm | Hin]; [left; exact Hm|].
      right. apply in_flat_map. exists y. split; assumption.
    - (* any other type *)
      intros t ms r IH e H. cbn [Length methodErrors] in *. unfold ownErrors.
      destruct ms as [[n|] [[b [e1|]]|] [[b' [e2|]]|]];
        cbn [LengthJSON MarshalJSON MarshalText snd] in *;
        try discriminate H;
        try (right; apply in_or_app; left; apply in_or_app; left; left; congruence);
        try (right; apply in_or_app; left; apply in_or_app; right; left; congruence).
      destruct (IH t e H) as [Hm | Hin]; [left; exact Hm|].
      right. apply in_or_app. right. exact Hin.
    - (* invalid *)
      intros t e H. cbn in H. left. unfold madeHere. right. left. congruence.
    - (* struct *)
      intros s IH t e H. cbn [jsonLenV methodErrorsShape] in *.
      unfold jsonLenStruct in H. rewrite snd_andThen in H.
      apply jsonLenStruct_loop_fails in H. destruct H as [-> | [x [Hx He]]].
      + left. unfold madeHere. auto.
      + rewrite Forall_forall in IH.
        destruct (IH x Hx e He) as [Hm | Hin]; [left; exact Hm|].
        right. apply in_flat_map. exists x. split; assumption.
    - (* map *)
      intros m IH t e H. cbn [jsonLenV methodErrorsShape] in *.
      unfold jsonLenMap in H. rewrite snd_andThen in H.
      apply jsonLenMap_loop_fails in H. destruct H as [-> | [kv [Hkv He]]].
      + left. unfold madeHere. auto.
      + rewrite Forall_forall in IH. destruct (IH kv Hkv) as [IHk IHv].
        destruct He as [He | He].
        * destruct (IHk e He) as [Hm | Hin]; [left; exact Hm|].
          right. apply in_flat_map. exists kv. split; [exact Hkv|].
          apply in_or_app. left. exact Hin.
        * destruct (IHv e He) as [Hm | Hin]; [left; exact Hm|].
          right. apply in_flat_map. exists kv. split; [exact Hkv|].
          apply in_or_app. right. exact Hin.
    - (* slice *)
      intros k s IH t e H. cbn [jsonLenV methodErrorsShape] in *.
      destruct (reflect.Kind_eqb k reflect.Uint8); [discriminate H|].
      apply Helems; assumption.
    - (* array *)
      intros s IH t e H. cbn [jsonLenV methodErrorsShape] in *.
      apply Helems; assumption.
    - (* pointer *)
      intros x IH t e H. cbn [jsonLenV methodErrorsShape] in *.
      destruct (Value.CanInterface x); cbn [negb snd] in H.
      + apply IH, H.
      + left. unfold madeHere. right. right. left. congruence.
    - (* interface *)
      intros x IH t e H. cbn [jsonLenV methodErrorsShape] in *.
      destruct (Value.CanInterface x); cbn [negb snd] in H.
      + apply IH, H.
      + left. unfold madeHere. right. right. left. congruence.
    - (* unsupported kind *)
      intros k t e H. cbn in H. left. unfold madeHere. left. exists t. congruence. }
  split; [exact HP|].
  intros r t e H. pose proof (HP (VOther t noMethods r) e) as H'.
  unfold P in H'. cbn [Length methodErrors noMethods LengthJSON MarshalJSON MarshalText
                       ownErrors app] in H'.
  apply H', H.
Qed.

(** An error that [Length] returns is one of the four this package makes
    (unsupported type, invalid value, and the two messages for a value that
    cannot be accessed), or it is, unchanged, an error that a [MarshalJSON]
    or [MarshalText] method of the value or of a value nested in it
    returned: no other error is made up, and none is wrapped. *)
Theorem Length_error_origin (v : value) (e : error) :
  snd (Length v) = Some e ->
  madeHere e \/ In e (methodErrors v).
Proof. apply Length_error_origin_both. Qed.

Lemma Length_error_origin_witness :
  madeHere (Custom "boom")
  \/ In (Custom "boom")
        (methodErrors
           (VSliceInterface
              [VNil; VOther "T" (mkMethods None (Some ([], Some (Custom "boom"))) None)
                       RInvalid])).
Proof.
  refine (Length_error_origin
            (VSliceInterface
               [VNil; VOther "T" (mkMethods None (Some ([], Some (Custom "boom"))) None)
                        RInvalid])
            (Custom "boom") _).
  reflexivity.
Defined.

(* ===================================================================== *)
(** * Pointers, and arrays of bytes *)
(* ===================================================================== *)


Lemma byte_value_length (x : byte) :
  1 <= jsonLenUint (Z.of_N (Byte.to_N x)) <= 3.
Proof.
  pose proof (Byte.to_N_bounded x) as Hx.
  assert (Hb : 0 <= Z.of_N (Byte.to_N x) <= 255) by lia.
  rewrite jsonLenUint_digits by (rewrite MaxUint_val; lia).
  split; [apply digitCount_nonzero_pos|].
  replace 3 with (digitCount 255) by reflexivity.
  apply digitCount_mono. lia.
Qed.

Lemma byteElems_measure (b : list byte) : Forall measuresR (byteElems b).
Proof.
  unfold byteElems. rewrite Forall_map. apply Forall_forall.
  intros x _. split; reflexivity.
Qed.

Lemma byteElems_sum (b : list byte) :
  lenl b
  <= sumZ (map (fun e => lengthOf (Value.Interface e)) (byteElems b))
  <= 3 * lenl b.
Proof.
  unfold byteElems. rewrite map_map.
  induction b as [|x b IH]; cbn [map]; [cbn; lia|].
  rewrite sumZ_cons, lenl_cons.
  assert (Hx : 1 <= lengthOf (Value.Interface
                               (Value.mk true (VUint Tuint8 (Z.of_N (Byte.to_N x))))) <= 3)
    by exact (byte_value_length x).
  lia.
Qed.

(** Bytes in an array are not bytes in a slice.  A slice of [n] bytes of a
    named type is measured as base64 text, [2 + n * 4 / 3]; an array of the
    same [n] bytes is measured as a sequence of numbers, from 1 to 3 bytes
    each with the separators between them, which is more than the slice
    gets as soon as [n >= 2]. *)
Theorem Length_byte_array (t : reflect.Type_) (b : list byte) :
  lenl b * 4 <= Int.MaxInt ->
  Length (VOther t noMethods (RSlice reflect.Uint8 (byteElems b)))
  = (2 + lenl b * 4 / 3, None)
  /\ measures (VOther t noMethods (RArray (byteElems b)))
  /\ 2 + lenl b + separators (lenl b)
     <= lengthOf (VOther t noMethods (RArray (byteElems b)))
     <= 2 + 3 * lenl b + separators (lenl b)
  /\ (2 <= lenl b ->
      lengthOf (VOther t noMethods (RSlice reflect.Uint8 (byteElems b)))
      < lengthOf (VOther t noMethods (RArray (byteElems b)))).
Proof.
  intros Hb. pose proof (lenl_nonneg b) as H0. rewrite MaxInt_val in Hb.
  pose proof (byteElems_sum b) as Hsum.
  assert (Hlen : lenl (byteElems b) = lenl b)
    by (unfold byteElems, lenl; rewrite length_map; reflexivity).
  assert (Hsep : 0 <= separators (lenl b) <= lenl b).
  { unfold separators. destruct (Z.ltb_spec 1 (lenl b)); lia. }
  assert (Hslice : Length (VOther t noMethods (RSlice reflect.Uint8 (byteElems b)))
                   = (2 + lenl b * 4 / 3, None)).
  { cbn [Length noMethods LengthJSON MarshalJSON MarshalText jsonLenV].
    change (reflect.Kind_eqb reflect.Uint8 reflect.Uint8) with true. cbv iota.
    rewrite jsonLenBytes_formula
      by (rewrite Bytes_length, Hlen, MaxInt_val; exact Hb).
    rewrite Bytes_length, Hlen. reflexivity. }
  assert (Harr : Length (VOther t noMethods (RArray (byteElems b)))
                 = (2 + sumZ (map (fun e => lengthOf (Value.Interface e)) (byteElems b))
                    + separators (lenl b), None)).
  { cbn [Length noMethods LengthJSON MarshalJSON MarshalText jsonLenV].
    rewrite (jsonLenArray_wrap _ (byteElems_measure b)), Hlen.
    rewrite wrap_fits by (apply fits_iff; lia). reflexivity. }
  unfold measures, lengthOf. rewrite Hslice, Harr. cbn [fst snd].
  split; [reflexivity|]. split; [reflexivity|]. split; [lia|].
  intros H2.
  assert (lenl b * 4 / 3 < 2 * lenl b - 1); [|unfold separators in *;
    destruct (Z.ltb_spec 1 (lenl b)); lia].
  apply Z.div_lt_upper_bound; lia.
Qed.

Lemma Length_byte_array_witness :
  lengthOf (VOther "T" noMethods (RSlice reflect.Uint8 (byteElems [x01; xff])))
  < lengthOf (VOther "T" noMethods (RArray (byteElems [x01; xff]))).
Proof.
  assert (H : lenl [x01; xff] * 4 <= Int.MaxInt) by (cbv; discriminate).
  assert (H2 : 2 <= lenl [x01; xff]) by (cbv; discriminate).
  exact (proj2 (proj2 (proj2 (Length_byte_array "T" [x01; xff] H))) H2).
Defined.
